(** * lightrec: the load/store engine, the recompiler driver and the executor

    A shallow embedding of [lightrec.c] (the core of the MIPS-to-native
    dynamic recompiler) and the properties of it that the specification
    states.

    Conventions of the embedding:
    - a [u32], [u16], [u8] value is a [Z] in range; every C operation that can
      leave the range is followed by the conversion that C applies ([u32],
      [u16], [u8], [s8], [s16], [s32] below);
    - [unsigned long] is 64 bits wide ([__WORDSIZE] = 64, an LP64 host); on a
      host with 32-bit [unsigned long] the two uses of [GENMASK] below with a
      low bound of 32 and 33 shift by at least the width of the type, which C
      leaves undefined;
    - host memory is a total map from host addresses to bytes, and the host is
      little-endian; host addresses are not wrapped (a buffer does not wrap
      around the address space);
    - a null pointer to a block or to the state is [None], and a null
      dereference is the outcome [NullDeref];
    - what [ERROR] prints, at a log level that prints errors, is appended to the
      [log] of the state. *)

From Stdlib Require Import ZArith List Lia Bool.
From coqutil Require Import Byte Z.bitblast Word.LittleEndianList.
Import ListNotations.
Local Open Scope Z_scope.

(** ** Integer conversions *)

Definition u8 (x : Z) : Z := x mod 2 ^ 8.
Definition u16 (x : Z) : Z := x mod 2 ^ 16.
Definition u32 (x : Z) : Z := x mod 2 ^ 32.
Definition s8 (x : Z) : Z := (x + 2 ^ 7) mod 2 ^ 8 - 2 ^ 7.
Definition s16 (x : Z) : Z := (x + 2 ^ 15) mod 2 ^ 16 - 2 ^ 15.
Definition s32 (x : Z) : Z := (x + 2 ^ 31) mod 2 ^ 32 - 2 ^ 31.

Definition __WORDSIZE : Z := 64.
Definition ulong (x : Z) : Z := x mod 2 ^ __WORDSIZE.

(** [#define GENMASK(h, l) (((~0UL) << (l)) & (~0UL >> (__WORDSIZE - 1 - (h))))] *)
Definition GENMASK (h l : Z) : Z :=
  Z.land (ulong (Z.shiftl (ulong (Z.lnot 0)) l))
         (Z.shiftr (ulong (Z.lnot 0)) (__WORDSIZE - 1 - h)).

(** ** Host memory *)

Definition hostmem : Type := Z -> byte.

Fixpoint load_bytes (m : hostmem) (a : Z) (n : nat) : list byte :=
  match n with
  | O => []
  | S k => m a :: load_bytes m (a + 1) k
  end.

Fixpoint store_bytes (m : hostmem) (a : Z) (bs : list byte) : hostmem :=
  match bs with
  | [] => m
  | b :: rest => store_bytes (fun x => if x =? a then b else m x) (a + 1) rest
  end.

(** Reads and writes through a pointer to [u8], [u16] or [u32]. *)
Definition load8 (m : hostmem) (a : Z) : Z := le_combine (load_bytes m a 1).
Definition load16 (m : hostmem) (a : Z) : Z := le_combine (load_bytes m a 2).
Definition load32 (m : hostmem) (a : Z) : Z := le_combine (load_bytes m a 4).
Definition store8 (m : hostmem) (a v : Z) : hostmem := store_bytes m a (le_split 1 v).
Definition store16 (m : hostmem) (a v : Z) : hostmem := store_bytes m a (le_split 2 v).
Definition store32 (m : hostmem) (a v : Z) : hostmem := store_bytes m a (le_split 4 v).

(** ** Opcodes *)

(** Modelled from the spec: [struct opcode] and the [OP_*] constants are
    declared in disassembler.h, which is not among the sources.  An opcode is
    the 32-bit instruction word (the member [opcode] of the union); its view
    [i] has the primary op code in the six high bits and the immediate in the
    sixteen low bits, and the [OP_*] constants are the MIPS I primary op
    codes. *)
Definition opcode : Type := Z.
Definition i_op (op : opcode) : Z := Z.shiftr op 26.
Definition i_imm (op : opcode) : Z := Z.land op 0xFFFF.

Definition OP_LB : Z := 0x20.
Definition OP_LH : Z := 0x21.
Definition OP_LWL : Z := 0x22.
Definition OP_LW : Z := 0x23.
Definition OP_LBU : Z := 0x24.
Definition OP_LHU : Z := 0x25.
Definition OP_LWR : Z := 0x26.
Definition OP_SB : Z := 0x28.
Definition OP_SH : Z := 0x29.
Definition OP_SWL : Z := 0x2a.
Definition OP_SW : Z := 0x2b.
Definition OP_SWR : Z := 0x2e.

(** ** Blocks and the state *)

(** [struct block]; its back pointer to the state is left out. *)
Record block : Type := mkblock {
  pc : Z;
  kunseg_pc : Z;
  _jit : Z;
  function : Z;
  opcode_list : list opcode;
  cycles : Z;
  code : Z
}.

(** Modelled from the spec: the exit flags are declared in lightrec.h, which
    is not among the sources; the spec names NORMAL and SEGFAULT and leaves
    the others to the emitter. *)
Inductive exit_flags : Type :=
| LIGHTREC_EXIT_NORMAL
| LIGHTREC_EXIT_SYSCALL
| LIGHTREC_EXIT_BREAK
| LIGHTREC_EXIT_SEGFAULT.

(** The messages that the source passes to [ERROR]; the log also records each
    call of the wrapper, with the address of the block's code that it is
    given. *)
Inductive log_entry : Type :=
| ErrSegfault (addr : Z)
| ErrLookupNoMem
| ErrWrapperNoMem
| ErrRecompileNoMem
| ErrRecompileAt (pc : Z)
| CallWrapper (func block_function : Z).

(** Modelled from the spec: the block cache is implemented in blockcache.c,
    which is not among the sources (blockcache.h only declares it): a mapping
    from PC to block; [find] returns the registered block of that PC, if any;
    [register] inserts. *)
Definition blockcache : Type := list block.
Definition lightrec_find_block (cache : blockcache) (pc0 : Z) : option block :=
  find (fun b => pc b =? pc0) cache.
Definition lightrec_register_block (cache : blockcache) (b : block) : blockcache :=
  b :: cache.
Definition lightrec_blockcache_init : blockcache := [].

(** [struct lightrec_state], without its memory map (see
    [lightrec_mem_map] below), together with the parts of the process that the
    code reads and writes: the host memory [mem], the error log [log], the
    outcomes [heap] of the allocation requests to come ([true]: the request
    succeeds; once the list is used up every request succeeds), and the state
    [jit] of the code generator (GNU Lightning, the emitter and the register
    cache). *)
Record lightrec_state {J : Type} : Type := mkstate {
  current : option block;
  next_pc : Z;
  end_of_block : Z;
  stop : bool;
  block_exit_flags : exit_flags;
  block_exit_cycles : Z;
  block_cache : blockcache;
  wrapper : option block;
  addr_lookup_block : option block;
  addr_lookup : Z;
  cop_ops : Z;
  mem : hostmem;
  log : list log_entry;
  heap : list bool;
  jit : J
}.
Arguments lightrec_state : clear implicits.
Arguments mkstate {J}.

(** Modelled from the spec: [struct lightrec_mem_map_ops] is declared in
    lightrec.h, which is not among the sources: six callbacks that take the
    state, the opcode, the guest address and, for the stores, the value, and
    that return, for the loads, the zero-extended result.  A callback
    receives the pointer to the state, so it is a transformer of the state. *)
Record lightrec_mem_map_ops {J : Type} : Type := mkops {
  sb : lightrec_state J -> opcode -> Z -> Z -> lightrec_state J;
  sh : lightrec_state J -> opcode -> Z -> Z -> lightrec_state J;
  sw : lightrec_state J -> opcode -> Z -> Z -> lightrec_state J;
  lb : lightrec_state J -> opcode -> Z -> Z * lightrec_state J;
  lh : lightrec_state J -> opcode -> Z -> Z * lightrec_state J;
  lw : lightrec_state J -> opcode -> Z -> Z * lightrec_state J
}.
Arguments lightrec_mem_map_ops : clear implicits.
Arguments mkops {J}.

(** [struct lightrec_mem_map]: [state->mem_map] is an array of [nb_maps] of
    these, copied at init and never written afterwards.  Its callbacks act on
    the state, so the array is passed next to the state rather than stored in
    the record. *)
Record lightrec_mem_map {J : Type} : Type := mkmap {
  map_pc : Z;
  map_length : Z;
  map_address : Z;
  map_ops : option (lightrec_mem_map_ops J)
}.
Arguments lightrec_mem_map : clear implicits.
Arguments mkmap {J}.

(** Assignments to one field of the state. *)
Definition set_current {J} (state : lightrec_state J) (v : option block)
    : lightrec_state J :=
  mkstate v (next_pc state) (end_of_block state) (stop state)
    (block_exit_flags state) (block_exit_cycles state) (block_cache state)
    (wrapper state) (addr_lookup_block state) (addr_lookup state)
    (cop_ops state) (mem state) (log state) (heap state) (jit state).

Definition set_end_of_block {J} (state : lightrec_state J) (v : Z)
    : lightrec_state J :=
  mkstate (current state) (next_pc state) v (stop state)
    (block_exit_flags state) (block_exit_cycles state) (block_cache state)
    (wrapper state) (addr_lookup_block state) (addr_lookup state)
    (cop_ops state) (mem state) (log state) (heap state) (jit state).

Definition set_stop {J} (state : lightrec_state J) (v : bool)
    : lightrec_state J :=
  mkstate (current state) (next_pc state) (end_of_block state) v
    (block_exit_flags state) (block_exit_cycles state) (block_cache state)
    (wrapper state) (addr_lookup_block state) (addr_lookup state)
    (cop_ops state) (mem state) (log state) (heap state) (jit state).

Definition set_block_exit_flags {J} (state : lightrec_state J) (v : exit_flags)
    : lightrec_state J :=
  mkstate (current state) (next_pc state) (end_of_block state) (stop state) v
    (block_exit_cycles state) (block_cache state) (wrapper state)
    (addr_lookup_block state) (addr_lookup state) (cop_ops state) (mem state)
    (log state) (heap state) (jit state).

Definition set_block_exit_cycles {J} (state : lightrec_state J) (v : Z)
    : lightrec_state J :=
  mkstate (current state) (next_pc state) (end_of_block state) (stop state)
    (block_exit_flags state) v (block_cache state) (wrapper state)
    (addr_lookup_block state) (addr_lookup state) (cop_ops state) (mem state)
    (log state) (heap state) (jit state).

Definition set_block_cache {J} (state : lightrec_state J) (v : blockcache)
    : lightrec_state J :=
  mkstate (current state) (next_pc state) (end_of_block state) (stop state)
    (block_exit_flags state) (block_exit_cycles state) v (wrapper state)
    (addr_lookup_block state) (addr_lookup state) (cop_ops state) (mem state)
    (log state) (heap state) (jit state).

Definition set_wrapper {J} (state : lightrec_state J) (v : option block)
    : lightrec_state J :=
  mkstate (current state) (next_pc state) (end_of_block state) (stop state)
    (block_exit_flags state) (block_exit_cycles state) (block_cache state) v
    (addr_lookup_block state) (addr_lookup state) (cop_ops state) (mem state)
    (log state) (heap state) (jit state).

Definition set_addr_lookup_block {J} (state : lightrec_state J) (v : option block)
    : lightrec_state J :=
  mkstate (current state) (next_pc state) (end_of_block state) (stop state)
    (block_exit_flags state) (block_exit_cycles state) (block_cache state)
    (wrapper state) v (addr_lookup state) (cop_ops state) (mem state)
    (log state) (heap state) (jit state).

Definition set_addr_lookup {J} (state : lightrec_state J) (v : Z)
    : lightrec_state J :=
  mkstate (current state) (next_pc state) (end_of_block state) (stop state)
    (block_exit_flags state) (block_exit_cycles state) (block_cache state)
    (wrapper state) (addr_lookup_block state) v (cop_ops state) (mem state)
    (log state) (heap state) (jit state).

Definition set_cop_ops {J} (state : lightrec_state J) (v : Z)
    : lightrec_state J :=
  mkstate (current state) (next_pc state) (end_of_block state) (stop state)
    (block_exit_flags state) (block_exit_cycles state) (block_cache state)
    (wrapper state) (addr_lookup_block state) (addr_lookup state) v
    (mem state) (log state) (heap state) (jit state).

Definition set_mem {J} (state : lightrec_state J) (v : hostmem)
    : lightrec_state J :=
  mkstate (current state) (next_pc state) (end_of_block state) (stop state)
    (block_exit_flags state) (block_exit_cycles state) (block_cache state)
    (wrapper state) (addr_lookup_block state) (addr_lookup state)
    (cop_ops state) v (log state) (heap state) (jit state).

Definition set_log {J} (state : lightrec_state J) (v : list log_entry)
    : lightrec_state J :=
  mkstate (current state) (next_pc state) (end_of_block state) (stop state)
    (block_exit_flags state) (block_exit_cycles state) (block_cache state)
    (wrapper state) (addr_lookup_block state) (addr_lookup state)
    (cop_ops state) (mem state) v (heap state) (jit state).

Definition set_heap {J} (state : lightrec_state J) (v : list bool)
    : lightrec_state J :=
  mkstate (current state) (next_pc state) (end_of_block state) (stop state)
    (block_exit_flags state) (block_exit_cycles state) (block_cache state)
    (wrapper state) (addr_lookup_block state) (addr_lookup state)
    (cop_ops state) (mem state) (log state) v (jit state).

Definition set_jit {J} (state : lightrec_state J) (v : J)
    : lightrec_state J :=
  mkstate (current state) (next_pc state) (end_of_block state) (stop state)
    (block_exit_flags state) (block_exit_cycles state) (block_cache state)
    (wrapper state) (addr_lookup_block state) (addr_lookup state)
    (cop_ops state) (mem state) (log state) (heap state) v.

Definition ERROR {J} (state : lightrec_state J) (e : log_entry) : lightrec_state J :=
  set_log state (log state ++ [e]).

(** The record of a call of the wrapper in the log. *)
Definition log_call {J} (state : lightrec_state J) (func f : Z) : lightrec_state J :=
  set_log state (log state ++ [CallWrapper func f]).

(** ** The load/store engine *)

Definition __segfault_cb {J} (state : lightrec_state J) (addr : Z) : lightrec_state J :=
  let state := set_stop state true in
  let state := set_block_exit_flags state LIGHTREC_EXIT_SEGFAULT in
  ERROR state (ErrSegfault addr).

Definition kunseg (addr : Z) : Z :=
  if addr >=? 0xa0000000 then u32 (addr - 0xa0000000)
  else if addr >=? 0x80000000 then u32 (addr - 0x80000000)
  else addr.

Definition lightrec_rw_ops {J} (state : lightrec_state J) (op : opcode)
    (ops : lightrec_mem_map_ops J) (addr data : Z) : Z * lightrec_state J :=
  let o := i_op op in
  if o =? OP_SB then (0, sb ops state op addr (u8 data))
  else if o =? OP_SH then (0, sh ops state op addr (u16 data))
  else if (o =? OP_SWL) || (o =? OP_SWR) || (o =? OP_SW) then
    (0, sw ops state op addr data)
  else if o =? OP_LB then
    let (v, state) := lb ops state op addr in (u32 (s32 (s8 (u8 v))), state)
  else if o =? OP_LBU then
    let (v, state) := lb ops state op addr in (u8 v, state)
  else if o =? OP_LH then
    let (v, state) := lh ops state op addr in (u32 (s32 (s16 (u16 v))), state)
  else if o =? OP_LHU then
    let (v, state) := lh ops state op addr in (u16 v, state)
  else
    let (v, state) := lw ops state op addr in (u32 v, state).

(** The body of the loop of [lightrec_rw] once an entry without callbacks
    contains [kaddr]: the [switch] on the op code. *)
Definition rw_direct {J} (state : lightrec_state J) (op : opcode)
    (kaddr data new_addr : Z) : Z * lightrec_state J :=
  let o := i_op op in
  let m := mem state in
  if o =? OP_SB then (0, set_mem state (store8 m new_addr (u8 data)))
  else if o =? OP_SH then (0, set_mem state (store16 m new_addr (u16 data)))
  else if o =? OP_SWL then
    let shift := Z.land kaddr 3 in
    let mem_data := load32 m (Z.land new_addr (Z.lnot 3)) in
    let mask := u32 (GENMASK 31 (u32 (shift * 8 + 9))) in
    (0, set_mem state (store32 m (Z.land new_addr (Z.lnot 3))
          (Z.lor (Z.shiftr data (u32 ((3 - shift) * 8)))
                 (Z.land mem_data mask))))
  else if o =? OP_SWR then
    let shift := Z.land kaddr 3 in
    let mem_data := load32 m (Z.land new_addr (Z.lnot 3)) in
    let mask := u32 (Z.shiftl 1 (u32 (shift * 8)) - 1) in
    (0, set_mem state (store32 m (Z.land new_addr (Z.lnot 3))
          (Z.lor (u32 (Z.shiftl data (u32 (shift * 8))))
                 (Z.land mem_data mask))))
  else if o =? OP_SW then (0, set_mem state (store32 m new_addr data))
  else if o =? OP_LB then (u32 (s32 (s8 (load8 m new_addr))), state)
  else if o =? OP_LBU then (load8 m new_addr, state)
  else if o =? OP_LH then (u32 (s32 (s16 (load16 m new_addr))), state)
  else if o =? OP_LHU then (load16 m new_addr, state)
  else if o =? OP_LWL then
    let shift := Z.land kaddr 3 in
    let mem_data := load32 m (Z.land new_addr (Z.lnot 3)) in
    let mask := u32 (Z.shiftl 1 (u32 (24 - shift * 8)) - 1) in
    (Z.lor (Z.land data mask) (u32 (Z.shiftl mem_data (u32 (24 - shift * 8)))),
     state)
  else if o =? OP_LWR then
    let shift := Z.land kaddr 3 in
    let mem_data := load32 m (Z.land new_addr (Z.lnot 3)) in
    let mask := u32 (GENMASK 31 (u32 (32 - shift * 8))) in
    (Z.lor (Z.land data mask) (Z.shiftr mem_data (u32 (shift * 8))), state)
  else (load32 m new_addr, state).

(** The [for] loop of [lightrec_rw] over [state->mem_map], from the entry at
    hand to the last one, and the segfault after it. *)
Fixpoint rw_loop {J} (map : list (lightrec_mem_map J)) (state : lightrec_state J)
    (op : opcode) (addr kaddr data : Z) : Z * lightrec_state J :=
  match map with
  | [] => (0, __segfault_cb state addr)
  | map_i :: rest =>
      let pc := map_pc map_i in
      match map_ops map_i with
      | Some ops =>
          if (addr <? pc) || (addr >=? u32 (pc + map_length map_i))
          then rw_loop rest state op addr kaddr data
          else lightrec_rw_ops state op ops addr data
      | None =>
          if (kaddr <? pc) || (kaddr >=? u32 (pc + map_length map_i))
          then rw_loop rest state op addr kaddr data
          else
            let new_addr := map_address map_i + u32 (kaddr - pc) in
            rw_direct state op kaddr data new_addr
      end
  end.

Definition lightrec_rw {J} (map : list (lightrec_mem_map J))
    (state : lightrec_state J) (op : opcode) (addr data : Z)
    : Z * lightrec_state J :=
  let addr := u32 (addr + s16 (i_imm op)) in
  let kaddr := kunseg addr in
  rw_loop map state op addr kaddr data.

(** ** The collaborators *)

(** The functions that [lightrec.c] calls and that other files of the
    project, or GNU Lightning, define: the disassembler, the emitter, the
    cycle table, the register cache and the code generator.  They are
    parameters of the driver.  A run of Lightning calls that emits one piece
    of code is one function on the state [J] of the code generator. *)
Record collaborators {J : Type} : Type := mkcollab {
  (** [init_jit(argv0)] *)
  init_jit : J -> J;
  (** [lightrec_regcache_init()] *)
  lightrec_regcache_init : J -> J;
  (** [lightrec_regcache_reset(state->reg_cache)] *)
  lightrec_regcache_reset : J -> J;
  (** [jit_new_state()]: the handle of a new code-generator state, or null *)
  jit_new_state : J -> option (Z * J);
  (** the code of [generate_wrapper_block] from [jit_name] to [jit_emit]:
      the entry of the wrapper and the address that [jit_indirect] labels *)
  jit_emit_wrapper : J -> Z * Z * J;
  (** the code of [generate_address_lookup_block] from [jit_prolog] to
      [jit_emit], for [nb_maps] entries: the entry of the stub *)
  jit_emit_address_lookup : Z -> J -> Z * J;
  (** [lightrec_disassemble(code)]: the opcode list read at [code]; the empty
      list is the null list *)
  lightrec_disassemble : hostmem -> Z -> list opcode;
  (** [lightrec_cycles_of_opcode(elm)] *)
  lightrec_cycles_of_opcode : opcode -> Z;
  (** [jit_prolog(); jit_tramp(256);] *)
  jit_prolog_tramp : J -> J;
  (** [lightrec_rec_opcode(block, elm, pc)]; [elm] is given with the
      opcodes that follow it in the list, which its [next] pointer reaches *)
  lightrec_rec_opcode : block -> list opcode -> Z -> J -> Z * J;
  (** the value that the emitter returns when it has emitted the delay slot
      together with the branch (emitter.h) *)
  SKIP_DELAY_SLOT : Z;
  (** [jit_ret(); jit_epilog(); jit_emit();] and [jit_clear_state()]: the
      entry of the emitted function *)
  jit_ret_emit : J -> Z * J;
  (** the run of the native code of the wrapper, entered with the address of
      the code of a block, until it comes back to the caller *)
  run_wrapper : Z -> Z -> lightrec_state J -> lightrec_state J
}.
Arguments collaborators : clear implicits.
Arguments mkcollab {J}.

(** ** The recompiler driver *)

(** [malloc]: the next outcome of the allocator. *)
Definition malloc {J} (state : lightrec_state J) : bool * lightrec_state J :=
  match heap state with
  | [] => (true, state)
  | ok :: rest => (ok, set_heap state rest)
  end.

(** The loop of [find_code_address]; the null pointer is 0, as the result is
    computed from the address of the entry. *)
Fixpoint find_code_address_loop {J} (map : list (lightrec_mem_map J)) (addr : Z) : Z :=
  match map with
  | [] => 0
  | map_i :: rest =>
      if (addr >=? map_pc map_i) && (addr <? u32 (map_pc map_i + map_length map_i))
      then map_address map_i + u32 (addr - map_pc map_i)
      else find_code_address_loop rest addr
  end.

Definition find_code_address {J} (map : list (lightrec_mem_map J)) (pc : Z) : Z :=
  find_code_address_loop map (kunseg pc).

Definition generate_address_lookup_block {J} (X : collaborators J)
    (state : lightrec_state J) (nb_maps : Z) : option block * lightrec_state J :=
  let (ok, state) := malloc state in
  if negb ok then (None, ERROR state ErrLookupNoMem)
  else
    match jit_new_state X (jit state) with
    | None => (None, ERROR state ErrLookupNoMem)
    | Some (_jit, j) =>
        let (f, j) := jit_emit_address_lookup X nb_maps j in
        (Some (mkblock 0 0 _jit f [] 0 0), set_jit state j)
    end.

Definition generate_wrapper_block {J} (X : collaborators J)
    (state : lightrec_state J) : option block * lightrec_state J :=
  let (ok, state) := malloc state in
  if negb ok then (None, ERROR state ErrWrapperNoMem)
  else
    match jit_new_state X (jit state) with
    | None => (None, ERROR state ErrWrapperNoMem)
    | Some (_jit, j) =>
        let '(f, addr, j) := jit_emit_wrapper X j in
        let state := set_jit state j in
        (Some (mkblock 0 0 _jit f [] 0 0), set_end_of_block state addr)
    end.

Definition set_cycles (b : block) (v : Z) : block :=
  mkblock (pc b) (kunseg_pc b) (_jit b) (function b) (opcode_list b) v (code b).

Definition set_function (b : block) (v : Z) : block :=
  mkblock (pc b) (kunseg_pc b) (_jit b) v (opcode_list b) (cycles b) (code b).

(** The [for] loop of [lightrec_recompile_block], from the element [elm] of
    the list to its end. *)
Fixpoint recompile_loop {J} (X : collaborators J) (elm : list opcode)
    (blk : block) (skip_next : bool) (pc : Z) (j : J) : block * J :=
  match elm with
  | [] => (blk, j)
  | op :: next =>
      let blk :=
        set_cycles blk (u32 (cycles blk + lightrec_cycles_of_opcode X op)) in
      if skip_next then recompile_loop X next blk false (u32 (pc + 4)) j
      else if op =? 0 then recompile_loop X next blk skip_next (u32 (pc + 4)) j
      else
        let (ret, j) := lightrec_rec_opcode X blk elm pc j in
        recompile_loop X next blk (ret =? SKIP_DELAY_SLOT X) (u32 (pc + 4)) j
  end.

Definition lightrec_recompile_block {J} (X : collaborators J)
    (map : list (lightrec_mem_map J)) (state : lightrec_state J) (pc : Z)
    : option block * lightrec_state J :=
  let code := find_code_address map pc in
  if code =? 0 then (None, state)
  else
    let (ok, state) := malloc state in
    if negb ok then (None, ERROR state ErrRecompileNoMem)
    else
      let list := lightrec_disassemble X (mem state) code in
      match list with
      | [] => (None, ERROR state ErrRecompileNoMem)
      | _ :: _ =>
          match jit_new_state X (jit state) with
          | None => (None, ERROR state ErrRecompileNoMem)
          | Some (_jit, j) =>
              let j := lightrec_regcache_reset X j in
              let blk := mkblock pc (kunseg pc) _jit 0 list 0 code in
              let j := jit_prolog_tramp X j in
              let (blk, j) := recompile_loop X list blk false pc j in
              let (f, j) := jit_ret_emit X j in
              (Some (set_function blk f), set_jit state j)
          end
      end.

(** ** The executor *)

Inductive outcome (A : Type) : Type :=
| Returned (a : A)
| NullDeref.
Arguments Returned {A}.
Arguments NullDeref {A}.

Definition lightrec_execute {J} (X : collaborators J)
    (map : list (lightrec_mem_map J)) (state : lightrec_state J) (pc : Z)
    : outcome (Z * lightrec_state J) :=
  match wrapper state with
  | None => NullDeref
  | Some w =>
      let func := function w in
      let run (blk : block) (state : lightrec_state J) :=
        let state := set_block_exit_flags state LIGHTREC_EXIT_NORMAL in
        let state := set_block_exit_cycles state 0 in
        let state := set_current state (Some blk) in
        let state := log_call state func (function blk) in
        let state := run_wrapper X func (function blk) state in
        Returned (next_pc state, state) in
      match lightrec_find_block (block_cache state) pc with
      | Some blk => run blk state
      | None =>
          let (r, state) := lightrec_recompile_block X map state pc in
          match r with
          | None => Returned (pc, ERROR state (ErrRecompileAt pc))
          | Some blk =>
              let state :=
                set_block_cache state
                  (lightrec_register_block (block_cache state) blk) in
              run blk state
          end
      end
  end.

(** ** Initialisation *)

(** [lightrec_init]; the world before the call is the host memory, the log,
    the allocator and the code generator.  [calloc] takes the first outcome
    of the allocator and gives a zeroed state.  The state that is returned
    comes with the [nb] entries copied into [state->mem_map]. *)
Definition lightrec_init {J} (X : collaborators J) (m : hostmem)
    (l : list log_entry) (h : list bool) (j : J)
    (map : list (lightrec_mem_map J)) (nb : Z) (cop_ops : Z)
    : outcome (list (lightrec_mem_map J) * lightrec_state J) :=
  let j := init_jit X j in
  let (ok, h) := match h with [] => (true, []) | ok :: rest => (ok, rest) end in
  if negb ok then NullDeref
  else
    let state :=
      mkstate None 0 0 false LIGHTREC_EXIT_NORMAL 0 [] None None 0 0 m l h j in
    let state := set_block_cache state lightrec_blockcache_init in
    let state := set_jit state (lightrec_regcache_init X (jit state)) in
    let mem_map := firstn (Z.to_nat nb) map in
    let state := set_cop_ops state cop_ops in
    let (w, state) := generate_wrapper_block X state in
    let state := set_wrapper state w in
    let (b, state) := generate_address_lookup_block X state nb in
    let state := set_addr_lookup_block state b in
    match addr_lookup_block state with
    | None => NullDeref
    | Some blk => Returned (mem_map, set_addr_lookup state (function blk))
    end.

(** ** The notions of the specification *)

(** Step 1 of the engine: [addr = base_addr + sign_extend(opcode.imm16)]. *)
Definition effective_address (base : Z) (op : opcode) : Z :=
  u32 (base + s16 (i_imm op)).

(** The test that an entry contains the address [a], as the loops write it. *)
Definition map_contains {J} (m : lightrec_mem_map J) (a : Z) : bool :=
  (map_pc m <=? a) && (a <? u32 (map_pc m + map_length m)).

(** The resolution of §4.A: an entry with MMIO ops is matched on the address
    before [kunseg], an entry without on the address after it; the first hit
    in the order of the array is returned. *)
Definition map_selects {J} (addr : Z) (m : lightrec_mem_map J) : bool :=
  match map_ops m with
  | Some _ => map_contains m addr
  | None => map_contains m (kunseg addr)
  end.

Definition resolve {J} (map : list (lightrec_mem_map J)) (addr : Z)
    : option (lightrec_mem_map J) :=
  find (map_selects addr) map.

(** [host = host_ptr + (kaddr - region_base)] *)
Definition host_address {J} (m : lightrec_mem_map J) (addr : Z) : Z :=
  map_address m + u32 (kunseg addr - map_pc m).

(** The 32-bit value of a [w]-bit datum, sign-extended. *)
Definition sign_extend (w v : Z) : Z :=
  if Z.testbit v (w - 1) then v + (2 ^ 32 - 2 ^ w) else v.

(** The byte and the halfword that an access through the entry [m] loads:
    from host memory, or from the callback of the region. *)
Definition loaded_byte {J} (m : lightrec_mem_map J) (state : lightrec_state J)
    (op : opcode) (addr : Z) : Z :=
  match map_ops m with
  | Some ops => u8 (fst (lb ops state op addr))
  | None => load8 (mem state) (host_address m addr)
  end.

Definition loaded_half {J} (m : lightrec_mem_map J) (state : lightrec_state J)
    (op : opcode) (addr : Z) : Z :=
  match map_ops m with
  | Some ops => u16 (fst (lh ops state op addr))
  | None => load16 (mem state) (host_address m addr)
  end.

(** [Σ cycles_of(opcode)] over a list of opcodes. *)
Definition sum_cycles {J} (X : collaborators J) (l : list opcode) : Z :=
  fold_right Z.add 0 (List.map (lightrec_cycles_of_opcode X) l).

(** The byte counts of SWL and SWR as §4.B words them: SWL puts the high
    [4 - shift] bytes of the data in the low bytes of the word, SWR the low
    [shift + 1] bytes of the data in the high bytes of the word. *)
Definition spec_swl_bytes (shift data word : Z) : Prop :=
  Z.land word (Z.ones (8 * (4 - shift))) = Z.shiftr data (8 * shift).

Definition spec_swr_bytes (shift data word : Z) : Prop :=
  Z.shiftr word (8 * (4 - (shift + 1))) = Z.land data (Z.ones (8 * (shift + 1))).

(** The unaligned round trip at the guest address of [op_swl], [op_swr],
    [op_lwl] and [op_lwr] (all four with the same base and immediate): the
    value that the final LWR returns. *)
Definition unaligned_round_trip {J} (map : list (lightrec_mem_map J))
    (state : lightrec_state J) (op_swl op_swr op_lwl op_lwr : opcode)
    (base v : Z) : Z :=
  let (_, state) := lightrec_rw map state op_swl base v in
  let (_, state) := lightrec_rw map state op_swr base v in
  let (r, state) := lightrec_rw map state op_lwl base 0 in
  fst (lightrec_rw map state op_lwr base r).

(** ** A small machine to run the definitions on *)

(** An I-type instruction word. *)
Definition insn (op imm : Z) : opcode := Z.lor (Z.shiftl op 26) imm.

(** A buffer at host address 0x10000 whose first word is 0xAABBCCDD. *)
Definition mem0 : hostmem := store32 (fun _ => Byte.x00) 0x10000 0xAABBCCDD.

Definition state0 : lightrec_state unit :=
  mkstate None 0 0 false LIGHTREC_EXIT_NORMAL 0 [] None None 0 0 mem0 [] [] tt.

(** [pc_base = 0, length = 0x1000, host = the buffer], without callbacks. *)
Definition ram : lightrec_mem_map unit := mkmap 0 0x1000 0x10000 None.

(** A device whose loads return 0xFF, 0x8001 and 0xCAFEBABE, and whose stores
    write the value at host address 0x20000. *)
Definition dev_ops : lightrec_mem_map_ops unit :=
  mkops (fun s _ _ v => set_mem s (store8 (mem s) 0x20000 v))
        (fun s _ _ v => set_mem s (store16 (mem s) 0x20000 v))
        (fun s _ _ v => set_mem s (store32 (mem s) 0x20000 v))
        (fun s _ _ => (0xFF, s))
        (fun s _ _ => (0x8001, s))
        (fun s _ _ => (0xCAFEBABE, s)).

Definition dev : lightrec_mem_map unit := mkmap 0x1f801000 0x1000 0 (Some dev_ops).

(** An MMIO region that ends with the address space, and an empty region. *)
Definition dev_top : lightrec_mem_map unit := mkmap 0xfffe0000 0x20000 0 (Some dev_ops).
Definition ram_empty : lightrec_mem_map unit := mkmap 0x2000 0 0x30000 None.

(** Two entries without callbacks: one based in kseg0, and one that covers
    the whole of kuseg. *)
Definition ram_kseg0 : lightrec_mem_map unit := mkmap 0x80000000 0x1000 0x10000 None.
Definition ram_kuseg : lightrec_mem_map unit := mkmap 0 0x80000000 0x10000 None.

(** Collaborators: every opcode costs two cycles, the emitter asks to skip the
    delay slot after a branch (primary op codes 4 and 5) and counts its calls
    in the state of the code generator, the disassembler gives a branch, its
    delay slot, a NOP and a store. *)
Definition toy : collaborators Z :=
  mkcollab (fun j => j) (fun j => j) (fun j => j)
    (fun j => Some (7, j))
    (fun j => (0x4000, 0x4040, j))
    (fun _ j => (0x5000, j))
    (fun _ _ => [insn 4 8; insn 0x23 0; 0; insn 0x28 0])
    (fun _ => 2)
    (fun j => j)
    (fun _ elm _ j =>
       match elm with
       | op :: _ => (if (i_op op =? 4) || (i_op op =? 5) then 1 else 0, j + 1)
       | [] => (0, j)
       end)
    1
    (fun j => (0x6000, j))
    (fun _ _ s => s).

(** The same, with a code generator that has no memory left. *)
Definition toy_no_jit : collaborators Z :=
  mkcollab (init_jit toy) (lightrec_regcache_init toy)
    (lightrec_regcache_reset toy) (fun _ => None) (jit_emit_wrapper toy)
    (jit_emit_address_lookup toy) (lightrec_disassemble toy)
    (lightrec_cycles_of_opcode toy) (jit_prolog_tramp toy)
    (lightrec_rec_opcode toy) (SKIP_DELAY_SLOT toy) (jit_ret_emit toy)
    (run_wrapper toy).

Definition ramZ : lightrec_mem_map Z := mkmap 0 0x1000 0x10000 None.

Definition stateZ (h : list bool) : lightrec_state Z :=
  mkstate None 0 0 false LIGHTREC_EXIT_NORMAL 0 [] (Some (mkblock 0 0 7 0x4000 [] 0 0))
    None 0 0 mem0 [] h 0.

(** The block that the driver builds at PC 0 with these collaborators. *)
Definition toy_block : block :=
  mkblock 0 0 7 0x6000 [insn 4 8; insn 0x23 0; 0; insn 0x28 0] 8 0x10000.

(** ** Notions for the further properties *)

(** The op codes that write memory. *)
Definition is_store (op : opcode) : bool :=
  (i_op op =? OP_SB) || (i_op op =? OP_SH) || (i_op op =? OP_SWL)
  || (i_op op =? OP_SWR) || (i_op op =? OP_SW).

(** Host memory as an array of bits: bit [n] is bit [n mod 8] of the byte at
    [n / 8]. *)
Definition membit (m : hostmem) (n : Z) : bool :=
  Z.testbit (load8 m (n / 8)) (n mod 8).

(** ** Release *)

(** The functions that [lightrec_free_block] and [lightrec_destroy] call and
    that other files, or GNU Lightning, define; they act on the state [J] of
    the code generator, the register cache and the emitter. *)
Record releasers {J : Type} : Type := mkrel {
  (** [lightrec_free_opcode_list(list)] *)
  lightrec_free_opcode_list : list opcode -> J -> J;
  (** [_jit_destroy_state(_jit)], on the handle of a code-generator state *)
  _jit_destroy_state : Z -> J -> J;
  (** [lightrec_free_regcache(state->reg_cache)] *)
  lightrec_free_regcache : J -> J;
  (** [lightrec_free_block_cache(state->block_cache)] *)
  lightrec_free_block_cache : blockcache -> J -> J;
  (** [finish_jit()] *)
  finish_jit : J -> J
}.
Arguments releasers : clear implicits.
Arguments mkrel {J}.

(** [lightrec_free_block]: the block is read before it is freed. *)
Definition lightrec_free_block {J} (R : releasers J) (b : option block) (j : J)
    : outcome J :=
  match b with
  | None => NullDeref
  | Some b =>
      let j := lightrec_free_opcode_list R (opcode_list b) j in
      Returned (_jit_destroy_state R (_jit b) j)
  end.

(** [lightrec_destroy]: what is left after [free(state)] is the state of the
    code generator. *)
Definition lightrec_destroy {J} (R : releasers J) (state : lightrec_state J)
    : outcome J :=
  let j := lightrec_free_regcache R (jit state) in
  let j := lightrec_free_block_cache R (block_cache state) j in
  match lightrec_free_block R (wrapper state) j with
  | NullDeref => NullDeref
  | Returned j =>
      match lightrec_free_block R (addr_lookup_block state) j with
      | NullDeref => NullDeref
      | Returned j => Returned (finish_jit R j)
      end
  end.

(** The collaborators [toy] with a disassembler that gives three NOPs. *)
Definition toy_nops : collaborators Z :=
  mkcollab (init_jit toy) (lightrec_regcache_init toy)
    (lightrec_regcache_reset toy) (jit_new_state toy) (jit_emit_wrapper toy)
    (jit_emit_address_lookup toy) (fun _ _ => [0; 0; 0])
    (lightrec_cycles_of_opcode toy) (jit_prolog_tramp toy)
    (lightrec_rec_opcode toy) (SKIP_DELAY_SLOT toy) (jit_ret_emit toy)
    (run_wrapper toy).

(** Releasers that count what they release. *)
Definition toy_release : releasers Z :=
  mkrel (fun _ j => j + 1) (fun _ j => j + 1) (fun j => j + 1)
        (fun _ j => j + 1) (fun j => j + 1).

(** * Properties *)

(** ** The definitions on the scenarios of the specification *)

Example kunseg_kseg1 : kunseg 0xa0000010 = 0x10.
Proof. reflexivity. Qed.

Example kunseg_kseg0 : kunseg 0x80000010 = 0x10.
Proof. reflexivity. Qed.

Example kunseg_kuseg : kunseg 0x00000010 = 0x10.
Proof. reflexivity. Qed.

Example GENMASK_31_9 : GENMASK 31 9 = 0xFFFFFE00.
Proof. reflexivity. Qed.

Example GENMASK_31_33 : GENMASK 31 33 = 0.
Proof. reflexivity. Qed.

Example GENMASK_31_32 : GENMASK 31 32 = 0.
Proof. reflexivity. Qed.

(** [SB r0, 0(r0)] with [r0 = 0]: the first byte of the buffer becomes 0. *)
Example map_and_store :
  load8 (mem (snd (lightrec_rw [ram] state0 (insn OP_SB 0) 0 0))) 0x10000 = 0 /\
  load32 (mem (snd (lightrec_rw [ram] state0 (insn OP_SB 0) 0 0))) 0x10000
  = 0xAABBCC00.
Proof. split; reflexivity. Qed.

(** SB to an odd address writes that byte only. *)
Example store_byte_odd :
  load32 (mem (snd (lightrec_rw [ram] state0 (insn OP_SB 1) 0 0x1EE))) 0x10000
  = 0xAABBEEDD.
Proof. reflexivity. Qed.

(** LB and LBU of the byte 0xDD of the buffer. *)
Example load_byte_signed :
  fst (lightrec_rw [ram] state0 (insn OP_LB 0) 0x80000000 0) = 0xFFFFFFDD.
Proof. reflexivity. Qed.

Example load_byte_unsigned :
  fst (lightrec_rw [ram] state0 (insn OP_LBU 0) 0x80000000 0) = 0xDD.
Proof. reflexivity. Qed.

(** A negative immediate: [LW r1, -4(r0)] with [r0 = 4]. *)
Example load_word_negative_offset :
  fst (lightrec_rw [ram] state0 (insn OP_LW 0xFFFC) 4 0) = 0xAABBCCDD.
Proof. reflexivity. Qed.

(** LWL and LWR at offset 1 of the word 0xAABBCCDD, over 0x11223344. *)
Example load_word_left :
  fst (lightrec_rw [ram] state0 (insn OP_LWL 1) 0 0x11223344) = 0xCCDD3344.
Proof. reflexivity. Qed.

Example load_word_right :
  fst (lightrec_rw [ram] state0 (insn OP_LWR 1) 0 0x11223344) = 0x11AABBCC.
Proof. reflexivity. Qed.

(** [LW r1, 0(r0)] with [r0 = 0xDEADBEEF], which no entry maps. *)
Example segfault_scenario :
  let state := snd (lightrec_rw [ram] state0 (insn OP_LW 0) 0xDEADBEEF 0) in
  stop state = true /\ block_exit_flags state = LIGHTREC_EXIT_SEGFAULT /\
  log state = [ErrSegfault 0xDEADBEEF].
Proof. repeat split. Qed.

(** A miss in the cache compiles and registers a block, and calls the
    wrapper with its code. *)
Example cache_miss :
  match lightrec_execute toy [ramZ] (stateZ []) 0 with
  | Returned (_, state) =>
      block_cache state = [toy_block] /\ current state = Some toy_block /\
      log state = [CallWrapper 0x4000 0x6000]
  | NullDeref => False
  end.
Proof. vm_compute. repeat split. Qed.


(** ** Host memory *)

Lemma store_bytes_below bs : forall m a x, x < a -> store_bytes m a bs x = m x.
Proof.
  induction bs as [|b bs IH]; intros m a x Hx; simpl; [reflexivity|].
  rewrite IH by lia. destruct (Z.eqb_spec x a); [lia|reflexivity].
Qed.

Lemma load_store_bytes bs : forall m a,
  load_bytes (store_bytes m a bs) a (length bs) = bs.
Proof.
  induction bs as [|b bs IH]; intros m a; simpl; [reflexivity|].
  rewrite IH, store_bytes_below by lia. now rewrite Z.eqb_refl.
Qed.

Lemma load32_store32 m a v : load32 (store32 m a v) a = u32 v.
Proof.
  unfold load32, store32.
  change 4%nat with (length (le_split 4 v)) at 1.
  rewrite load_store_bytes. apply le_combine_split.
Qed.

Lemma load8_store8 m a v : load8 (store8 m a v) a = u8 v.
Proof.
  unfold load8, store8.
  change 1%nat with (length (le_split 1 v)) at 1.
  rewrite load_store_bytes. apply le_combine_split.
Qed.

Lemma load8_range m a : 0 <= load8 m a < 2 ^ 8.
Proof. unfold load8. apply (le_combine_bound (load_bytes m a 1)). Qed.

Lemma load16_range m a : 0 <= load16 m a < 2 ^ 16.
Proof. unfold load16. apply (le_combine_bound (load_bytes m a 2)). Qed.

Lemma load32_range m a : 0 <= load32 m a < 2 ^ 32.
Proof. unfold load32. apply (le_combine_bound (load_bytes m a 4)). Qed.

Lemma u32_range x : 0 <= u32 x < 2 ^ 32.
Proof. unfold u32. apply Z.mod_pos_bound. lia. Qed.

Lemma u32_small x : 0 <= x < 2 ^ 32 -> u32 x = x.
Proof. intros H. unfold u32. apply Z.mod_small. exact H. Qed.

(** ** The memory map *)

Lemma rw_loop_resolve {J} (map : list (lightrec_mem_map J)) state op addr data :
  rw_loop map state op addr (kunseg addr) data =
  match resolve map addr with
  | None => (0, __segfault_cb state addr)
  | Some m =>
      match map_ops m with
      | Some ops => lightrec_rw_ops state op ops addr data
      | None => rw_direct state op (kunseg addr) data (host_address m addr)
      end
  end.
Proof.
  unfold resolve.
  induction map as [|m rest IH]; [reflexivity|].
  cbn [rw_loop find]. unfold map_selects at 1, map_contains.
  destruct (map_ops m) as [ops|] eqn:Hops.
  - destruct (Z.ltb_spec addr (map_pc m)), (Z.leb_spec (map_pc m) addr); try lia;
      cbn [orb andb]; [exact IH|].
    destruct (Z.geb_spec addr (u32 (map_pc m + map_length m))),
             (Z.ltb_spec addr (u32 (map_pc m + map_length m))); try lia;
      [exact IH|now rewrite Hops].
  - destruct (Z.ltb_spec (kunseg addr) (map_pc m)),
             (Z.leb_spec (map_pc m) (kunseg addr)); try lia;
      cbn [orb andb]; [exact IH|].
    destruct (Z.geb_spec (kunseg addr) (u32 (map_pc m + map_length m))),
             (Z.ltb_spec (kunseg addr) (u32 (map_pc m + map_length m))); try lia;
      [exact IH|now rewrite Hops].
Qed.

Lemma lightrec_rw_resolve {J} (map : list (lightrec_mem_map J)) state op base data :
  lightrec_rw map state op base data =
  match resolve map (effective_address base op) with
  | None => (0, __segfault_cb state (effective_address base op))
  | Some m =>
      match map_ops m with
      | Some ops => lightrec_rw_ops state op ops (effective_address base op) data
      | None =>
          rw_direct state op (kunseg (effective_address base op)) data
            (host_address m (effective_address base op))
      end
  end.
Proof. unfold lightrec_rw. apply rw_loop_resolve. Qed.

Lemma resolve_none {J} (map : list (lightrec_mem_map J)) addr :
  (forall m, In m map -> map_selects addr m = false) -> resolve map addr = None.
Proof.
  unfold resolve. induction map as [|m rest IH]; intros H; [reflexivity|].
  cbn [find]. rewrite (H m (or_introl eq_refl)).
  apply IH. intros m' Hin. apply H. now right.
Qed.

(** Two addresses with the same physical offset that both resolve to direct
    memory resolve to the same entry. *)
Lemma resolve_direct_same {J} (map : list (lightrec_mem_map J)) a1 a2 m1 m2 :
  kunseg a1 = kunseg a2 ->
  resolve map a1 = Some m1 -> map_ops m1 = None ->
  resolve map a2 = Some m2 -> map_ops m2 = None ->
  m1 = m2.
Proof.
  intros Hk. unfold resolve.
  induction map as [|m rest IH]; cbn [find]; [discriminate|].
  unfold map_selects at 1 3. rewrite Hk.
  destruct (map_ops m) as [ops|] eqn:Hops.
  - destruct (map_contains m a1), (map_contains m a2); intros H1 O1 H2 O2;
      try (injection H1 as <-; congruence);
      try (injection H2 as <-; congruence).
    now apply IH.
  - destruct (map_contains m (kunseg a2)); intros H1 O1 H2 O2; [congruence|].
    now apply IH.
Qed.

Lemma kunseg_mirror x : 0 <= x < 0x20000000 ->
  kunseg (0xa0000000 + x) = x /\ kunseg (0x80000000 + x) = x.
Proof.
  intros Hx. unfold kunseg.
  destruct (Z.geb_spec (0xa0000000 + x) 0xa0000000); [|lia].
  destruct (Z.geb_spec (0x80000000 + x) 0xa0000000); [lia|].
  destruct (Z.geb_spec (0x80000000 + x) 0x80000000); [|lia].
  split; rewrite <- (u32_small x) at 2 by lia; f_equal; lia.
Qed.

Lemma rw_direct_SB {J} (state : lightrec_state J) op kaddr data h :
  i_op op = OP_SB ->
  rw_direct state op kaddr data h = (0, set_mem state (store8 (mem state) h (u8 data))).
Proof. intros H. unfold rw_direct. now rewrite H. Qed.

Lemma rw_direct_LBU {J} (state : lightrec_state J) op kaddr data h :
  i_op op = OP_LBU ->
  rw_direct state op kaddr data h = (load8 (mem state) h, state).
Proof. intros H. unfold rw_direct. now rewrite H. Qed.

(** C5.  [kunseg] subtracts 0xA0000000 from an address at or above it, else
    0x80000000 from an address at or above it, else leaves the address as it
    is; so a byte stored through 0xA00000xx and loaded through 0x800000xx,
    both in direct memory, is one and the same byte of host memory: the load
    returns what the store wrote. *)
Theorem kunseg_mirrors {J} (map : list (lightrec_mem_map J)) (state : lightrec_state J) :
  (forall a, 0 <= a < 2 ^ 32 ->
     kunseg a = if 0xa0000000 <=? a then a - 0xa0000000
                else if 0x80000000 <=? a then a - 0x80000000
                else a) /\
  (forall x op_sb op_lbu base_s base_l data m_s m_l,
     0 <= x < 0x100 ->
     i_op op_sb = OP_SB -> i_op op_lbu = OP_LBU ->
     effective_address base_s op_sb = 0xa0000000 + x ->
     effective_address base_l op_lbu = 0x80000000 + x ->
     resolve map (0xa0000000 + x) = Some m_s -> map_ops m_s = None ->
     resolve map (0x80000000 + x) = Some m_l -> map_ops m_l = None ->
     host_address m_s (0xa0000000 + x) = host_address m_l (0x80000000 + x) /\
     let state1 := snd (lightrec_rw map state op_sb base_s data) in
     mem state1 = store8 (mem state) (host_address m_s (0xa0000000 + x)) (u8 data) /\
     lightrec_rw map state1 op_lbu base_l 0 = (u8 data, state1)).
Proof.
  split.
  - intros a Ha. unfold kunseg.
    destruct (Z.geb_spec a 0xa0000000), (Z.leb_spec 0xa0000000 a); try lia;
      [apply u32_small; lia|].
    destruct (Z.geb_spec a 0x80000000), (Z.leb_spec 0x80000000 a); try lia.
    apply u32_small. lia.
  - intros x op_sb op_lbu base_s base_l data m_s m_l Hx Hsb Hlbu Es El Rs Os Rl Ol.
    destruct (kunseg_mirror x ltac:(lia)) as [Ka Kb].
    assert (m_s = m_l) as <-
      by (apply (resolve_direct_same map _ _ _ _ (eq_trans Ka (eq_sym Kb)) Rs Os Rl Ol)).
    assert (host_address m_s (0xa0000000 + x) = host_address m_s (0x80000000 + x)) as Hh
      by (unfold host_address; now rewrite Ka, Kb).
    split; [exact Hh|].
    rewrite (lightrec_rw_resolve map state op_sb), Es, Rs, Os, (rw_direct_SB _ _ _ _ _ Hsb).
    cbn [snd]. split; [reflexivity|].
    rewrite lightrec_rw_resolve, El, Rl, Os, (rw_direct_LBU _ _ _ _ _ Hlbu), <- Hh.
    cbn [mem set_mem]. rewrite load8_store8. unfold u8. now rewrite Z.mod_mod by lia.
Qed.

Lemma kunseg_mirrors_witness :
  host_address ram 0xa0000010 = host_address ram 0x80000010 /\
  let state1 := snd (lightrec_rw [ram] state0 (insn OP_SB 0x10) 0xa0000000 0x15A) in
  mem state1 = store8 (mem state0) (host_address ram 0xa0000010) (u8 0x15A) /\
  lightrec_rw [ram] state1 (insn OP_LBU 0x10) 0x80000000 0 = (u8 0x15A, state1).
Proof.
  apply (proj2 (kunseg_mirrors [ram] state0) 0x10 (insn OP_SB 0x10)
           (insn OP_LBU 0x10) 0xa0000000 0x80000000 0x15A ram ram);
    solve [lia | reflexivity].
Defined.

Lemma find_app_hit {A} (f : A -> bool) (pre : list A) (x : A) (post : list A) :
  (forall e, In e pre -> f e = false) -> f x = true ->
  find f (pre ++ x :: post) = Some x.
Proof.
  induction pre as [|e pre IH]; intros Hpre Hx; cbn [app find].
  - now rewrite Hx.
  - rewrite (Hpre e (or_introl eq_refl)). apply IH; [|exact Hx].
    intros e' He'. apply Hpre. now right.
Qed.

Lemma find_app_miss {A} (f : A -> bool) (pre : list A) (x : A) (post : list A) :
  f x = false -> find f (pre ++ x :: post) = find f (pre ++ post).
Proof.
  intros Hx. induction pre as [|e pre IH]; cbn [app find].
  - now rewrite Hx.
  - now rewrite IH.
Qed.

(** C3, as amended.  The engine takes the first entry, in the order of the
    array, that contains the address: the address before [kunseg] for an entry
    with MMIO ops, the address after [kunseg] for an entry without; when there
    is none it raises the segfault.  For an entry that is not empty and that
    ends below 2^32, an access whose address, taken before [kunseg] if the
    entry has ops and after [kunseg] if it has none, is [pc_base + length - 1]
    is served by that entry, unless an earlier entry takes it; an access whose
    address, taken the same way, is [pc_base + length] is served as if the
    entry were not in the array. *)
Theorem rw_resolution {J} (map : list (lightrec_mem_map J)) (state : lightrec_state J)
    (op : opcode) (base data : Z) :
  let addr := effective_address base op in
  lightrec_rw map state op base data =
    match find (fun m => match map_ops m with
                         | Some _ => map_contains m addr
                         | None => map_contains m (kunseg addr)
                         end) map with
    | None => (0, __segfault_cb state addr)
    | Some m =>
        match map_ops m with
        | Some ops => lightrec_rw_ops state op ops addr data
        | None => rw_direct state op (kunseg addr) data
                    (map_address m + u32 (kunseg addr - map_pc m))
        end
    end /\
  forall (pre : list (lightrec_mem_map J)) (m : lightrec_mem_map J)
         (post : list (lightrec_mem_map J)),
    map = pre ++ m :: post ->
    0 <= map_pc m -> 0 < map_length m -> map_pc m + map_length m < 2 ^ 32 ->
    let matched := match map_ops m with Some _ => addr | None => kunseg addr end in
    (matched = map_pc m + map_length m - 1 ->
     (forall e, In e pre -> map_selects addr e = false) ->
     lightrec_rw map state op base data =
       match map_ops m with
       | Some ops => lightrec_rw_ops state op ops addr data
       | None => rw_direct state op (kunseg addr) data
                   (map_address m + (map_length m - 1))
       end) /\
    (matched = map_pc m + map_length m ->
     lightrec_rw map state op base data
     = lightrec_rw (pre ++ post) state op base data).
Proof.
  split; [apply lightrec_rw_resolve|].
  intros pre m post -> Hpc Hlen Hend matched.
  assert (map_selects (effective_address base op) m = map_contains m matched) as S
    by (unfold map_selects; subst matched; now destruct (map_ops m)).
  split.
  - intros Hm Hpre. rewrite lightrec_rw_resolve. unfold resolve.
    rewrite (find_app_hit _ pre m post Hpre).
    + destruct (map_ops m) as [ops|]; [reflexivity|].
      unfold host_address. subst matched. rewrite Hm.
      replace (map_pc m + map_length m - 1 - map_pc m) with (map_length m - 1) by lia.
      now rewrite u32_small by lia.
    + rewrite S, Hm. unfold map_contains. rewrite u32_small by lia.
      apply andb_true_intro. split; [apply Z.leb_le|apply Z.ltb_lt]; lia.
  - intros Hm. rewrite !lightrec_rw_resolve. unfold resolve.
    rewrite (find_app_miss _ pre m post); [reflexivity|].
    rewrite S, Hm. unfold map_contains. rewrite u32_small by lia.
    apply andb_false_intro2. apply Z.ltb_ge. lia.
Qed.

Lemma rw_resolution_witness :
  (kunseg (effective_address 0x80000fff (insn OP_LW 0))
   = map_pc ram + map_length ram - 1 /\
   lightrec_rw [dev; ram] state0 (insn OP_LW 0) 0x80000fff 0
   = rw_direct state0 (insn OP_LW 0)
       (kunseg (effective_address 0x80000fff (insn OP_LW 0))) 0
       (map_address ram + (map_length ram - 1))) /\
  (kunseg (effective_address 0x80001000 (insn OP_LW 0))
   = map_pc ram + map_length ram /\
   lightrec_rw [dev; ram] state0 (insn OP_LW 0) 0x80001000 0
   = lightrec_rw [dev] state0 (insn OP_LW 0) 0x80001000 0) /\
  (effective_address 0x1f801fff (insn OP_LW 0) = map_pc dev + map_length dev - 1 /\
   lightrec_rw [dev; ram] state0 (insn OP_LW 0) 0x1f801fff 0
   = lightrec_rw_ops state0 (insn OP_LW 0) dev_ops
       (effective_address 0x1f801fff (insn OP_LW 0)) 0).
Proof.
  assert (0 <= map_pc ram /\ 0 < map_length ram /\
          map_pc ram + map_length ram < 2 ^ 32) as (R1 & R2 & R3)
    by (cbn; lia).
  assert (0 <= map_pc dev /\ 0 < map_length dev /\
          map_pc dev + map_length dev < 2 ^ 32) as (D1 & D2 & D3)
    by (cbn; lia).
  split; [|split].
  - split; [reflexivity|].
    destruct (proj2 (rw_resolution [dev; ram] state0 (insn OP_LW 0) 0x80000fff 0)
                [dev] ram [] eq_refl R1 R2 R3) as [H _].
    apply H; [reflexivity|]. intros e [<-|[]]. reflexivity.
  - split; [reflexivity|].
    destruct (proj2 (rw_resolution [dev; ram] state0 (insn OP_LW 0) 0x80001000 0)
                [dev] ram [] eq_refl R1 R2 R3) as [_ H].
    apply H. reflexivity.
  - split; [reflexivity|].
    destruct (proj2 (rw_resolution [dev; ram] state0 (insn OP_LW 0) 0x1f801fff 0)
                [] dev [ram] eq_refl D1 D2 D3) as [H _].
    apply H; [reflexivity|]. intros e [].
Defined.

(** C3, as stated, fails in four ways.  An entry without ops is matched on
    the address after [kunseg]: a load at [pc_base + length - 1] of an entry
    based in kseg0 segfaults, and a load at [pc_base + length] of an entry
    that covers kuseg is served by it.  For a region that ends with the
    address space the sum [pc + length] wraps to 0, and for an empty region
    [pc_base + length - 1] lies below [pc_base]: a load at
    [pc_base + length - 1] segfaults in both. *)
Lemma rw_resolution_counterexample :
  map_pc ram_kseg0 + map_length ram_kseg0 - 1 = 0x80000fff /\
  lightrec_rw [ram_kseg0] state0 (insn OP_LW 0) 0x80000fff 0
    = (0, __segfault_cb state0 0x80000fff) /\
  map_pc ram_kuseg + map_length ram_kuseg = 0x80000000 /\
  lightrec_rw [ram_kuseg] state0 (insn OP_LW 0) 0x80000000 0
    = (0xAABBCCDD, state0) /\
  map_pc dev_top + map_length dev_top - 1 = 0xffffffff /\
  lightrec_rw [dev_top] state0 (insn OP_LW 0) 0xffffffff 0
    = (0, __segfault_cb state0 0xffffffff) /\
  map_pc ram_empty + map_length ram_empty - 1 = 0x1fff /\
  lightrec_rw [ram_empty] state0 (insn OP_LW 0) 0x1fff 0
    = (0, __segfault_cb state0 0x1fff).
Proof. repeat split. Qed.

(** C4.  When no entry of the memory map contains the effective address, the
    engine sets [stop], sets the exit flags to SEGFAULT, logs the address and
    returns 0; every other field of the state, and the host memory, is as
    before. *)
Theorem rw_segfault {J} (map : list (lightrec_mem_map J)) (state : lightrec_state J)
    (op : opcode) (base data : Z) :
  (forall m, In m map -> map_selects (effective_address base op) m = false) ->
  lightrec_rw map state op base data =
    (0, mkstate (current state) (next_pc state) (end_of_block state) true
          LIGHTREC_EXIT_SEGFAULT (block_exit_cycles state) (block_cache state)
          (wrapper state) (addr_lookup_block state) (addr_lookup state)
          (cop_ops state) (mem state)
          (log state ++ [ErrSegfault (effective_address base op)])
          (heap state) (jit state)).
Proof.
  intros H. rewrite lightrec_rw_resolve, (resolve_none _ _ H). reflexivity.
Qed.

Lemma rw_segfault_witness :
  lightrec_rw [dev; ram] state0 (insn OP_LW 0xbeef) 0xdeadffff 0 =
    (0, mkstate None 0 0 true LIGHTREC_EXIT_SEGFAULT 0 [] None None 0 0 mem0
          [ErrSegfault 0xdeadbeee] [] tt).
Proof.
  apply (rw_segfault [dev; ram] state0 (insn OP_LW 0xbeef) 0xdeadffff 0).
  intros m [<-|[<-|[]]]; reflexivity.
Defined.

(** ** Loads of bytes and halfwords *)

Lemma sign_extend_8 v : 0 <= v < 2 ^ 8 -> u32 (s32 (s8 v)) = sign_extend 8 v.
Proof.
  intros Hv. unfold sign_extend, u32, s32, s8. change (8 - 1) with 7.
  destruct (Z.testbit v 7) eqn:E;
    [apply Z.testbit_true in E|apply Z.testbit_false in E]; try lia;
    change (2 ^ 7) with 128 in *; change (2 ^ 8) with 256 in *;
    change (2 ^ 31) with 2147483648; change (2 ^ 32) with 4294967296;
    Z.div_mod_to_equations; lia.
Qed.

Lemma sign_extend_16 v : 0 <= v < 2 ^ 16 -> u32 (s32 (s16 v)) = sign_extend 16 v.
Proof.
  intros Hv. unfold sign_extend, u32, s32, s16. change (16 - 1) with 15.
  destruct (Z.testbit v 15) eqn:E;
    [apply Z.testbit_true in E|apply Z.testbit_false in E]; try lia;
    change (2 ^ 15) with 32768 in *; change (2 ^ 16) with 65536 in *;
    change (2 ^ 31) with 2147483648; change (2 ^ 32) with 4294967296;
    Z.div_mod_to_equations; lia.
Qed.

Lemma u8_range x : 0 <= u8 x < 2 ^ 8.
Proof. unfold u8. apply Z.mod_pos_bound. lia. Qed.

Lemma u16_range x : 0 <= u16 x < 2 ^ 16.
Proof. unfold u16. apply Z.mod_pos_bound. lia. Qed.

Lemma loaded_byte_range {J} (m : lightrec_mem_map J) state op addr :
  0 <= loaded_byte m state op addr < 2 ^ 8.
Proof.
  unfold loaded_byte. destruct (map_ops m); [apply u8_range|apply load8_range].
Qed.

Lemma loaded_half_range {J} (m : lightrec_mem_map J) state op addr :
  0 <= loaded_half m state op addr < 2 ^ 16.
Proof.
  unfold loaded_half. destruct (map_ops m); [apply u16_range|apply load16_range].
Qed.

(** What the engine returns once the address has resolved to [m], for each of
    the four narrow loads. *)
Lemma rw_narrow_load {J} (map : list (lightrec_mem_map J)) state op base data m :
  resolve map (effective_address base op) = Some m ->
  (i_op op = OP_LB ->
   fst (lightrec_rw map state op base data)
   = u32 (s32 (s8 (loaded_byte m state op (effective_address base op))))) /\
  (i_op op = OP_LBU ->
   fst (lightrec_rw map state op base data)
   = loaded_byte m state op (effective_address base op)) /\
  (i_op op = OP_LH ->
   fst (lightrec_rw map state op base data)
   = u32 (s32 (s16 (loaded_half m state op (effective_address base op))))) /\
  (i_op op = OP_LHU ->
   fst (lightrec_rw map state op base data)
   = loaded_half m state op (effective_address base op)).
Proof.
  intros R. rewrite lightrec_rw_resolve, R. unfold loaded_byte, loaded_half.
  destruct (map_ops m) as [ops|]; unfold lightrec_rw_ops, rw_direct;
    repeat split; intros ->; cbn -[u32 s32 s8 s16 u8 u16 load8 load16];
    try reflexivity.
  - now destruct (lb ops state op _).
  - now destruct (lb ops state op _).
  - now destruct (lh ops state op _).
  - now destruct (lh ops state op _).
Qed.

(** C9.  LB returns the sign-extension of the byte that it loads and LBU its
    zero-extension, LH the sign-extension of the halfword that it loads and
    LHU its zero-extension, in direct memory and through MMIO alike; for the
    byte 0xFF, LB returns 0xFFFFFFFF and LBU returns 0x000000FF. *)
Theorem load_extension {J} (map : list (lightrec_mem_map J)) (state : lightrec_state J)
    (op : opcode) (base data : Z) (m : lightrec_mem_map J) :
  let addr := effective_address base op in
  let r := fst (lightrec_rw map state op base data) in
  resolve map addr = Some m ->
  (i_op op = OP_LB -> r = sign_extend 8 (loaded_byte m state op addr)) /\
  (i_op op = OP_LBU -> r = loaded_byte m state op addr /\ 0 <= r < 2 ^ 8) /\
  (i_op op = OP_LH -> r = sign_extend 16 (loaded_half m state op addr)) /\
  (i_op op = OP_LHU -> r = loaded_half m state op addr /\ 0 <= r < 2 ^ 16) /\
  (loaded_byte m state op addr = 0xFF ->
   (i_op op = OP_LB -> r = 0xFFFFFFFF) /\ (i_op op = OP_LBU -> r = 0x000000FF)).
Proof.
  intros addr r R.
  destruct (rw_narrow_load map state op base data m R) as (LB & LBU & LH & LHU).
  fold addr in LB, LBU, LH, LHU. fold r in LB, LBU, LH, LHU.
  pose proof (loaded_byte_range m state op addr) as Hb.
  pose proof (loaded_half_range m state op addr) as Hh.
  repeat split.
  - intros H. rewrite (LB H). now apply sign_extend_8.
  - now apply LBU.
  - rewrite (LBU H). apply Hb.
  - rewrite (LBU H). apply Hb.
  - intros H. rewrite (LH H). now apply sign_extend_16.
  - now apply LHU.
  - rewrite (LHU H). apply Hh.
  - rewrite (LHU H). apply Hh.
  - intros H'. rewrite (LB H'), H. reflexivity.
  - intros H'. rewrite (LBU H'), H. reflexivity.
Qed.

Lemma load_extension_witness :
  resolve [dev; ram] (effective_address 0x1f801000 (insn OP_LB 0)) = Some dev /\
  loaded_byte dev state0 (insn OP_LB 0) 0x1f801000 = 0xFF /\
  fst (lightrec_rw [dev; ram] state0 (insn OP_LB 0) 0x1f801000 0) = 0xFFFFFFFF.
Proof.
  split; [reflexivity|]. split; [reflexivity|].
  apply (load_extension [dev; ram] state0 (insn OP_LB 0) 0x1f801000 0 dev);
    reflexivity.
Defined.

(** ** Unaligned word accesses to an MMIO region *)

(** C10.  In an MMIO region SWL and SWR are a full-word store: the [sw]
    callback receives the address and the data as they are; LWL and LWR are a
    full-word load: the engine returns what the [lw] callback returns, whatever
    the incoming register value. *)
Theorem mmio_unaligned {J} (map : list (lightrec_mem_map J)) (state : lightrec_state J)
    (op : opcode) (base data : Z) (m : lightrec_mem_map J)
    (ops : lightrec_mem_map_ops J) :
  let addr := effective_address base op in
  resolve map addr = Some m -> map_ops m = Some ops ->
  (i_op op = OP_SWL \/ i_op op = OP_SWR ->
   lightrec_rw map state op base data = (0, sw ops state op addr data)) /\
  (i_op op = OP_LWL \/ i_op op = OP_LWR ->
   lightrec_rw map state op base data
   = (u32 (fst (lw ops state op addr)), snd (lw ops state op addr))).
Proof.
  intros addr R O. rewrite lightrec_rw_resolve. fold addr. rewrite R, O.
  unfold lightrec_rw_ops.
  split; intros [-> | ->]; cbn -[u32]; try reflexivity;
    now destruct (lw ops state op addr).
Qed.

Lemma mmio_unaligned_witness :
  resolve [dev; ram] (effective_address 0x1f801000 (insn OP_SWL 1)) = Some dev /\
  map_ops dev = Some dev_ops /\
  lightrec_rw [dev; ram] state0 (insn OP_SWL 1) 0x1f801000 0x11223344
  = (0, sw dev_ops state0 (insn OP_SWL 1) 0x1f801001 0x11223344) /\
  load32 (mem (snd (lightrec_rw [dev; ram] state0 (insn OP_SWL 1) 0x1f801000
                      0x11223344))) 0x20000 = 0x11223344.
Proof.
  split; [reflexivity|]. split; [reflexivity|].
  assert (lightrec_rw [dev; ram] state0 (insn OP_SWL 1) 0x1f801000 0x11223344
          = (0, sw dev_ops state0 (insn OP_SWL 1) 0x1f801001 0x11223344)) as E.
  { apply (mmio_unaligned [dev; ram] state0 (insn OP_SWL 1) 0x1f801000
             0x11223344 dev dev_ops eq_refl eq_refl).
    left. reflexivity. }
  split; [exact E|]. rewrite E. vm_compute. reflexivity.
Defined.

(** ** Unaligned stores to direct memory *)

Lemma store_bytes_above bs : forall m a x,
  a + Z.of_nat (length bs) <= x -> store_bytes m a bs x = m x.
Proof.
  induction bs as [|b bs IH]; intros m a x Hx; simpl; [reflexivity|].
  simpl length in Hx. rewrite IH by lia.
  destruct (Z.eqb_spec x a); [lia|reflexivity].
Qed.

Lemma store32_other m a v x : x < a \/ a + 4 <= x -> store32 m a v x = m x.
Proof.
  intros [H|H]; unfold store32.
  - now apply store_bytes_below.
  - apply store_bytes_above. rewrite length_le_split. lia.
Qed.

Lemma shift_range k : 0 <= Z.land k 3 <= 3.
Proof.
  change (Z.land k 3) with (Z.land k (Z.ones 2)). rewrite Z.land_ones by lia.
  pose proof (Z.mod_pos_bound k (2 ^ 2) ltac:(lia)). lia.
Qed.

Lemma u32_bits x i : 0 <= i -> Z.testbit (u32 x) i = (i <? 32) && Z.testbit x i.
Proof. intros Hi. unfold u32. apply Z.testbit_mod_pow2. lia. Qed.

Lemma bits_above_u32 x i : 0 <= x < 2 ^ 32 -> 32 <= i -> Z.testbit x i = false.
Proof.
  intros Hx Hi. rewrite <- (u32_small x Hx), u32_bits by lia.
  destruct (Z.ltb_spec i 32); [lia|reflexivity].
Qed.

Lemma GENMASK_31_bits l i : 0 <= l -> 0 <= i ->
  Z.testbit (GENMASK 31 l) i = (l <=? i) && (i <? 32).
Proof.
  intros Hl Hi. unfold GENMASK, ulong, __WORDSIZE.
  change (Z.lnot 0) with (-1). change (64 - 1 - 31) with 32.
  Z.bitblast_core.
  all: destruct (Z.leb_spec l i); try reflexivity; try lia.
Qed.

(** The word that SWL stores. *)
Lemma swl_word_bits s data old :
  0 <= s <= 3 -> 0 <= data < 2 ^ 32 ->
  let new := u32 (Z.lor (Z.shiftr data (u32 ((3 - s) * 8)))
                        (Z.land old (u32 (GENMASK 31 (u32 (s * 8 + 9)))))) in
  (forall i, 0 <= i < 8 * (s + 1) ->
     Z.testbit new i = Z.testbit data (i + 8 * (3 - s))) /\
  (forall i, 0 <= i -> Z.testbit (GENMASK 31 (s * 8 + 9)) i = true ->
     Z.testbit new i = Z.testbit old i) /\
  (forall i, 8 * (s + 1) <= i -> Z.testbit (GENMASK 31 (s * 8 + 9)) i = false ->
     Z.testbit new i = false).
Proof.
  intros Hs Hd new. subst new.
  rewrite (u32_small ((3 - s) * 8)), (u32_small (s * 8 + 9)) by lia.
  repeat split; intros i Hi.
  - rewrite u32_bits, Z.lor_spec, Z.land_spec, Z.shiftr_spec, u32_bits,
      GENMASK_31_bits by lia.
    destruct (Z.ltb_spec i 32), (Z.leb_spec (s * 8 + 9) i); try lia.
    cbn [andb]. rewrite andb_false_r, orb_false_r. f_equal. lia.
  - intros G. rewrite u32_bits, Z.lor_spec, Z.land_spec, Z.shiftr_spec, u32_bits,
      G by lia.
    rewrite GENMASK_31_bits in G by lia.
    destruct (Z.ltb_spec i 32), (Z.leb_spec (s * 8 + 9) i); try discriminate.
    rewrite (bits_above_u32 data) by lia. cbn. now rewrite andb_true_r.
  - intros G. rewrite u32_bits, Z.lor_spec, Z.land_spec, Z.shiftr_spec, u32_bits,
      G by lia.
    rewrite (bits_above_u32 data) by lia.
    now rewrite !andb_false_r.
Qed.

(** The word that SWR stores. *)
Lemma swr_word_bits s data old :
  0 <= s <= 3 ->
  let new := u32 (Z.lor (u32 (Z.shiftl data (u32 (s * 8))))
                        (Z.land old (u32 (Z.shiftl 1 (u32 (s * 8)) - 1)))) in
  (forall i, 8 * s <= i < 32 -> Z.testbit new i = Z.testbit data (i - 8 * s)) /\
  (forall i, 0 <= i < 8 * s -> Z.testbit new i = Z.testbit old i).
Proof.
  intros Hs new. subst new.
  rewrite (u32_small (s * 8)) by lia.
  rewrite Z.shiftl_1_l, Z.sub_1_r, <- Z.ones_equiv.
  split; intros i Hi.
  - rewrite u32_bits, Z.lor_spec, Z.land_spec, !u32_bits, Z.shiftl_spec,
      Z.testbit_ones_nonneg by lia.
    destruct (Z.ltb_spec i 32), (Z.ltb_spec i (s * 8)); try lia.
    cbn [andb]. rewrite !andb_false_r, orb_false_r. f_equal. lia.
  - rewrite u32_bits, Z.lor_spec, Z.land_spec, !u32_bits, Z.shiftl_spec,
      Z.testbit_ones_nonneg by lia.
    destruct (Z.ltb_spec i 32), (Z.ltb_spec i (s * 8)); try lia.
    rewrite (Z.testbit_neg_r data) by lia. cbn. now rewrite andb_true_r.
Qed.

(** C1, as amended.  In direct memory, with [shift = kaddr & 3] and the word
    at the host address rounded down to a multiple of 4: SWL stores the high
    [shift + 1] bytes of the data in the low bytes of the word, keeps the bits
    of [GENMASK(31, shift * 8 + 9)] of the word and no other bit of it; SWR
    stores the low [4 - shift] bytes of the data in the high bytes of the word
    and keeps the low [shift * 8] bits of the word.  Nothing outside the word
    is written, and 0 is returned. *)
Theorem unaligned_store {J} (map : list (lightrec_mem_map J)) (state : lightrec_state J)
    (op : opcode) (base data : Z) (m : lightrec_mem_map J) :
  let addr := effective_address base op in
  let shift := Z.land (kunseg addr) 3 in
  let a := Z.land (host_address m addr) (Z.lnot 3) in
  let old := load32 (mem state) a in
  let state' := snd (lightrec_rw map state op base data) in
  let new := load32 (mem state') a in
  0 <= data < 2 ^ 32 ->
  resolve map addr = Some m -> map_ops m = None ->
  (i_op op = OP_SWL ->
     fst (lightrec_rw map state op base data) = 0 /\
     (forall x, x < a \/ a + 4 <= x -> mem state' x = mem state x) /\
     (forall i, 0 <= i < 8 * (shift + 1) ->
        Z.testbit new i = Z.testbit data (i + 8 * (3 - shift))) /\
     (forall i, 0 <= i -> Z.testbit (GENMASK 31 (shift * 8 + 9)) i = true ->
        Z.testbit new i = Z.testbit old i) /\
     (forall i, 8 * (shift + 1) <= i ->
        Z.testbit (GENMASK 31 (shift * 8 + 9)) i = false ->
        Z.testbit new i = false)) /\
  (i_op op = OP_SWR ->
     fst (lightrec_rw map state op base data) = 0 /\
     (forall x, x < a \/ a + 4 <= x -> mem state' x = mem state x) /\
     (forall i, 8 * shift <= i < 32 ->
        Z.testbit new i = Z.testbit data (i - 8 * shift)) /\
     (forall i, 0 <= i < 8 * shift -> Z.testbit new i = Z.testbit old i)).
Proof.
  intros addr shift a old state' new Hd R O.
  subst new state'. rewrite lightrec_rw_resolve. fold addr. rewrite R, O.
  pose proof (shift_range (kunseg addr)) as Hs. fold shift in Hs.
  unfold rw_direct. split; intros ->; cbn [Z.eqb OP_SB OP_SH OP_SWL OP_SWR Pos.eqb fst snd];
    fold shift a; cbn [mem set_mem]; fold old; rewrite load32_store32;
    (split; [reflexivity|]); (split; [intros x Hx; now apply store32_other|]).
  - apply (swl_word_bits shift data old Hs Hd).
  - apply (swr_word_bits shift data old Hs).
Qed.

Lemma unaligned_store_witness :
  resolve [ram] (effective_address 0 (insn OP_SWL 1)) = Some ram /\
  Z.land (kunseg (effective_address 0 (insn OP_SWL 1))) 3 = 1 /\
  load32 (mem (snd (lightrec_rw [ram] state0 (insn OP_SWL 1) 0 0x11223344))) 0x10000
    = 0xAABA1122 /\
  forall i, 0 <= i < 8 * (1 + 1) ->
    Z.testbit (load32 (mem (snd (lightrec_rw [ram] state0 (insn OP_SWL 1) 0
                                   0x11223344))) 0x10000) i
    = Z.testbit 0x11223344 (i + 8 * (3 - 1)).
Proof.
  split; [reflexivity|]. split; [reflexivity|]. split; [reflexivity|].
  apply (unaligned_store [ram] state0 (insn OP_SWL 1) 0 0x11223344 ram
           ltac:(lia) eq_refl eq_refl).
  reflexivity.
Defined.

(** C1, as stated, fails at [shift = 1]: over the word 0xAABBCCDD, SWL of
    0x11223344 gives 0xAABA1122, whose three low bytes are not the three high
    bytes of the data, and SWR of 0x11223344 gives 0x223344DD, whose two high
    bytes are not the two low bytes of the data. *)
Lemma unaligned_store_counterexample :
  let swl := load32 (mem (snd (lightrec_rw [ram] state0 (insn OP_SWL 1) 0 0x11223344)))
               0x10000 in
  let swr := load32 (mem (snd (lightrec_rw [ram] state0 (insn OP_SWR 1) 0 0x11223344)))
               0x10000 in
  resolve [ram] (effective_address 0 (insn OP_SWL 1)) = Some ram /\
  Z.land (kunseg (effective_address 0 (insn OP_SWL 1))) 3 = 1 /\
  swl = 0xAABA1122 /\ ~ spec_swl_bytes 1 0x11223344 swl /\
  swr = 0x223344DD /\ ~ spec_swr_bytes 1 0x11223344 swr.
Proof.
  cbv zeta. repeat split; try reflexivity; intros H; vm_compute in H; discriminate H.
Qed.

(** ** The unaligned round trip *)

Ltac testbits :=
  repeat first
    [ rewrite Z.lor_spec
    | rewrite Z.land_spec
    | rewrite u32_bits by lia
    | rewrite GENMASK_31_bits by lia
    | rewrite Z.shiftl_spec by lia
    | rewrite Z.shiftr_spec by lia
    | rewrite Z.testbit_ones_nonneg by lia
    | match goal with
      | |- context [Z.testbit ?a ?n] => rewrite (Z.testbit_neg_r a n) by lia
      | Ha : 0 <= ?a < 2 ^ 32 |- context [Z.testbit ?a ?n] =>
          rewrite (bits_above_u32 a n Ha) by lia
      end ].

Ltac split_tests :=
  repeat match goal with
         | |- context [?a <? ?b] => destruct (Z.ltb_spec a b); try lia
         | |- context [?a <=? ?b] => destruct (Z.leb_spec a b); try lia
         end.

(** The word in memory after SWL then SWR of [v] at the same address, and
    what LWL (on a register that holds 0) then LWR read back from it. *)
Lemma round_trip_word s v old :
  0 <= s <= 3 -> 0 <= v < 2 ^ 32 ->
  let m1 := u32 (Z.lor (Z.shiftr v (u32 ((3 - s) * 8)))
                       (Z.land old (u32 (GENMASK 31 (u32 (s * 8 + 9)))))) in
  let m2 := u32 (Z.lor (u32 (Z.shiftl v (u32 (s * 8))))
                       (Z.land m1 (u32 (Z.shiftl 1 (u32 (s * 8)) - 1)))) in
  let r1 := Z.lor (Z.land 0 (u32 (Z.shiftl 1 (u32 (24 - s * 8)) - 1)))
                  (u32 (Z.shiftl m2 (u32 (24 - s * 8)))) in
  Z.lor (Z.land r1 (u32 (GENMASK 31 (u32 (32 - s * 8))))) (Z.shiftr m2 (u32 (s * 8)))
  = if s =? 0 then v else Z.lor (Z.land v (Z.ones 24)) (Z.shiftl (Z.land v (Z.ones 8)) 24).
Proof.
  intros Hs Hv m1 m2 r1. subst r1 m2 m1.
  rewrite (u32_small ((3 - s) * 8)), (u32_small (s * 8 + 9)), (u32_small (s * 8)),
    (u32_small (24 - s * 8)), (u32_small (32 - s * 8)) by lia.
  rewrite Z.land_0_l, Z.lor_0_l, Z.shiftl_1_l, Z.sub_1_r, <- Z.ones_equiv.
  apply Z.bits_inj'. intros i Hi.
  assert (i < 8 \/ 8 <= i < 16 \/ 16 <= i < 24 \/ 24 <= i < 32 \/ 32 <= i) as Li by lia.
  assert (s = 0 \/ s = 1 \/ s = 2 \/ s = 3) as Cs by lia.
  destruct Cs as [-> | [-> | [-> | ->]]]; cbn [Z.eqb Pos.eqb];
    destruct Li as [Li|[Li|[Li|[Li|Li]]]];
    testbits; split_tests; cbn [andb orb];
    rewrite ?andb_false_r, ?andb_true_r, ?orb_false_r, ?orb_false_l;
    try reflexivity; f_equal; lia.
Qed.

Lemma rw_direct_SWL {J} (state : lightrec_state J) op kaddr data h :
  i_op op = OP_SWL ->
  rw_direct state op kaddr data h =
  (0, set_mem state
        (store32 (mem state) (Z.land h (Z.lnot 3))
           (Z.lor (Z.shiftr data (u32 ((3 - Z.land kaddr 3) * 8)))
                  (Z.land (load32 (mem state) (Z.land h (Z.lnot 3)))
                          (u32 (GENMASK 31 (u32 (Z.land kaddr 3 * 8 + 9)))))))).
Proof. intros H. unfold rw_direct. now rewrite H. Qed.

Lemma rw_direct_SWR {J} (state : lightrec_state J) op kaddr data h :
  i_op op = OP_SWR ->
  rw_direct state op kaddr data h =
  (0, set_mem state
        (store32 (mem state) (Z.land h (Z.lnot 3))
           (Z.lor (u32 (Z.shiftl data (u32 (Z.land kaddr 3 * 8))))
                  (Z.land (load32 (mem state) (Z.land h (Z.lnot 3)))
                          (u32 (Z.shiftl 1 (u32 (Z.land kaddr 3 * 8)) - 1)))))).
Proof. intros H. unfold rw_direct. now rewrite H. Qed.

Lemma rw_direct_LWL {J} (state : lightrec_state J) op kaddr data h :
  i_op op = OP_LWL ->
  rw_direct state op kaddr data h =
  (Z.lor (Z.land data (u32 (Z.shiftl 1 (u32 (24 - Z.land kaddr 3 * 8)) - 1)))
         (u32 (Z.shiftl (load32 (mem state) (Z.land h (Z.lnot 3)))
                        (u32 (24 - Z.land kaddr 3 * 8)))),
   state).
Proof. intros H. unfold rw_direct. now rewrite H. Qed.

Lemma rw_direct_LWR {J} (state : lightrec_state J) op kaddr data h :
  i_op op = OP_LWR ->
  rw_direct state op kaddr data h =
  (Z.lor (Z.land data (u32 (GENMASK 31 (u32 (32 - Z.land kaddr 3 * 8)))))
         (Z.shiftr (load32 (mem state) (Z.land h (Z.lnot 3)))
                   (u32 (Z.land kaddr 3 * 8))),
   state).
Proof. intros H. unfold rw_direct. now rewrite H. Qed.

Lemma rw_at_direct {J} (map : list (lightrec_mem_map J)) state op base data addr m :
  effective_address base op = addr ->
  resolve map addr = Some m -> map_ops m = None ->
  lightrec_rw map state op base data
  = rw_direct state op (kunseg addr) data (host_address m addr).
Proof. intros <- R O. now rewrite lightrec_rw_resolve, R, O. Qed.

(** C2, as amended.  In direct memory, SWL then SWR of [v] at the address A,
    then LWL at A on a register that holds 0, then LWR at A on the result of
    the LWL, give [v] when A is word-aligned ([A & 3 = 0]); when it is not,
    they give the three low bytes of [v] under a top byte that is the low byte
    of [v]. *)
Theorem swl_swr_lwl_lwr_round_trip {J} (map : list (lightrec_mem_map J)) (state : lightrec_state J)
    (op_swl op_swr op_lwl op_lwr : opcode) (base v : Z) (m : lightrec_mem_map J) :
  let addr := effective_address base op_swl in
  let shift := Z.land (kunseg addr) 3 in
  let r := unaligned_round_trip map state op_swl op_swr op_lwl op_lwr base v in
  i_op op_swl = OP_SWL -> i_op op_swr = OP_SWR ->
  i_op op_lwl = OP_LWL -> i_op op_lwr = OP_LWR ->
  i_imm op_swr = i_imm op_swl -> i_imm op_lwl = i_imm op_swl ->
  i_imm op_lwr = i_imm op_swl ->
  0 <= v < 2 ^ 32 ->
  resolve map addr = Some m -> map_ops m = None ->
  (shift = 0 -> r = v) /\
  (shift <> 0 -> r = Z.lor (Z.land v 0xFFFFFF) (Z.shiftl (Z.land v 0xFF) 24)).
Proof.
  intros addr shift r Hswl Hswr Hlwl Hlwr Iswr Ilwl Ilwr Hv R O.
  assert (r = if shift =? 0 then v
              else Z.lor (Z.land v (Z.ones 24)) (Z.shiftl (Z.land v (Z.ones 8)) 24)) as E.
  { assert (forall op, i_imm op = i_imm op_swl ->
              effective_address base op = addr) as A
      by (intros op Hop; unfold addr, effective_address; now rewrite Hop).
    subst r. unfold unaligned_round_trip.
    rewrite (rw_at_direct map _ op_swl base v addr m (A _ eq_refl) R O),
      (rw_direct_SWL _ _ _ _ _ Hswl).
    rewrite (rw_at_direct map _ op_swr base v addr m (A _ Iswr) R O),
      (rw_direct_SWR _ _ _ _ _ Hswr).
    rewrite (rw_at_direct map _ op_lwl base 0 addr m (A _ Ilwl) R O),
      (rw_direct_LWL _ _ _ _ _ Hlwl).
    rewrite (rw_at_direct map _ op_lwr base _ addr m (A _ Ilwr) R O),
      (rw_direct_LWR _ _ _ _ _ Hlwr).
    cbn [fst mem set_mem]. rewrite !load32_store32. fold shift.
    apply (round_trip_word shift v _ (shift_range (kunseg addr)) Hv). }
  split; intros Hs; rewrite E.
  - now rewrite Hs.
  - destruct (Z.eqb_spec shift 0); [contradiction|reflexivity].
Qed.

Lemma swl_swr_lwl_lwr_round_trip_witness :
  resolve [ram] (effective_address 0 (insn OP_SWL 4)) = Some ram /\
  Z.land (kunseg (effective_address 0 (insn OP_SWL 4))) 3 = 0 /\
  unaligned_round_trip [ram] state0 (insn OP_SWL 4) (insn OP_SWR 4)
    (insn OP_LWL 4) (insn OP_LWR 4) 0 0x11223344 = 0x11223344.
Proof.
  split; [reflexivity|]. split; [reflexivity|].
  apply (swl_swr_lwl_lwr_round_trip [ram] state0 (insn OP_SWL 4) (insn OP_SWR 4) (insn OP_LWL 4)
           (insn OP_LWR 4) 0 0x11223344 ram);
    solve [reflexivity | lia].
Defined.

(** C2, as stated, fails at every address that is not word-aligned: at
    [A = 1], the round trip of 0x11223344 gives 0x44223344. *)
Lemma swl_swr_lwl_lwr_round_trip_counterexample :
  resolve [ram] (effective_address 0 (insn OP_SWL 1)) = Some ram /\
  Z.land (kunseg (effective_address 0 (insn OP_SWL 1))) 3 = 1 /\
  unaligned_round_trip [ram] state0 (insn OP_SWL 1) (insn OP_SWR 1)
    (insn OP_LWL 1) (insn OP_LWR 1) 0 0x11223344 = 0x44223344 /\
  unaligned_round_trip [ram] state0 (insn OP_SWL 1) (insn OP_SWR 1)
    (insn OP_LWL 1) (insn OP_LWR 1) 0 0x11223344 <> 0x11223344.
Proof. repeat split. intros H. vm_compute in H. discriminate H. Qed.

(** ** The recompiler driver *)

Lemma u32_add_l a b : u32 (u32 a + b) = u32 (a + b).
Proof. unfold u32. apply Zplus_mod_idemp_l. Qed.

Lemma recompile_loop_spec {J} (X : collaborators J) elm :
  forall blk skip_next pc0 j,
    opcode_list (fst (recompile_loop X elm blk skip_next pc0 j)) = opcode_list blk /\
    u32 (cycles (fst (recompile_loop X elm blk skip_next pc0 j)))
    = u32 (cycles blk + sum_cycles X elm).
Proof.
  induction elm as [|op next IH]; intros blk skip_next pc0 j.
  - cbn. now rewrite Z.add_0_r.
  - cbn [recompile_loop].
    assert (forall s q k,
      opcode_list (fst (recompile_loop X next
         (set_cycles blk (u32 (cycles blk + lightrec_cycles_of_opcode X op))) s q k))
      = opcode_list blk /\
      u32 (cycles (fst (recompile_loop X next
         (set_cycles blk (u32 (cycles blk + lightrec_cycles_of_opcode X op))) s q k)))
      = u32 (cycles blk + sum_cycles X (op :: next))) as Step.
    { intros s q k. destruct (IH (set_cycles blk
        (u32 (cycles blk + lightrec_cycles_of_opcode X op))) s q k) as [L C].
      split; [exact L|]. rewrite C. cbn [cycles set_cycles].
      rewrite u32_add_l. unfold sum_cycles. cbn [List.map fold_right]. f_equal. lia. }
    destruct skip_next; [apply Step|].
    destruct (op =? 0); [apply Step|].
    destruct (lightrec_rec_opcode X _ (op :: next) pc0 j) as [ret j']. apply Step.
Qed.

Lemma recompile_loop_cycles_range {J} (X : collaborators J) elm :
  forall blk skip_next pc0 j,
    0 <= cycles blk < 2 ^ 32 ->
    0 <= cycles (fst (recompile_loop X elm blk skip_next pc0 j)) < 2 ^ 32.
Proof.
  induction elm as [|op next IH]; intros blk skip_next pc0 j Hc; [exact Hc|].
  cbn [recompile_loop].
  destruct skip_next; [apply IH, u32_range|].
  destruct (op =? 0); [apply IH, u32_range|].
  destruct (lightrec_rec_opcode X _ (op :: next) pc0 j) as [ret j'].
  apply IH, u32_range.
Qed.

(** The driver returns a block as soon as the PC is mapped, the allocator and
    the code generator have memory left and the disassembler gives a list. *)
Lemma recompile_block_succeeds {J} (X : collaborators J)
    (map : list (lightrec_mem_map J)) (state : lightrec_state J) (pc0 : Z) :
  find_code_address map pc0 <> 0 ->
  fst (malloc state) = true ->
  lightrec_disassemble X (mem state) (find_code_address map pc0) <> [] ->
  jit_new_state X (jit state) <> None ->
  exists blk state', lightrec_recompile_block X map state pc0 = (Some blk, state').
Proof.
  intros Hc Ha Hl Hj. unfold lightrec_recompile_block.
  destruct (Z.eqb_spec (find_code_address map pc0) 0); [contradiction|].
  assert (mem (snd (malloc state)) = mem state /\
          jit (snd (malloc state)) = jit state) as [Hm Hjit]
    by (unfold malloc; now destruct (heap state)).
  destruct (malloc state) as [ok state1]. cbn [fst snd] in *. subst ok.
  cbn [negb]. rewrite Hm, Hjit.
  destruct (lightrec_disassemble X (mem state) (find_code_address map pc0));
    [contradiction|].
  destruct (jit_new_state X (jit state)) as [[hd j1]|]; [|contradiction].
  destruct (recompile_loop X _ _ _ _ _) as [blk1 j2].
  destruct (jit_ret_emit X j2) as [f j3]. eauto.
Qed.

(** C6.  The block that [lightrec_recompile_block] returns holds the opcode
    list that the disassembler gave, and its [cycles] field is the sum of
    [cycles_of] over every opcode of that list, NOPs and skipped delay slots
    included, whatever the emitter returns; the sum is that of the [u32]
    field, and it is the exact sum as long as it fits in 32 bits. *)
Theorem recompile_cycles {J} (X : collaborators J) (map : list (lightrec_mem_map J))
    (state : lightrec_state J) (pc0 : Z) (blk : block) (state' : lightrec_state J) :
  lightrec_recompile_block X map state pc0 = (Some blk, state') ->
  opcode_list blk = lightrec_disassemble X (mem state) (find_code_address map pc0) /\
  cycles blk = u32 (sum_cycles X (opcode_list blk)) /\
  (0 <= sum_cycles X (opcode_list blk) < 2 ^ 32 ->
   cycles blk = sum_cycles X (opcode_list blk)).
Proof.
  unfold lightrec_recompile_block.
  destruct (find_code_address map pc0 =? 0); [discriminate|].
  assert (mem (snd (malloc state)) = mem state) as Hm
    by (unfold malloc; now destruct (heap state)).
  destruct (malloc state) as [ok state1]. cbn [snd] in Hm.
  destruct ok; cbn [negb]; [|discriminate].
  rewrite Hm.
  destruct (lightrec_disassemble X (mem state) (find_code_address map pc0))
    as [|op0 list0] eqn:Hl; [discriminate|].
  destruct (jit_new_state X (jit state1)) as [[h j]|]; [|discriminate].
  match goal with
  | |- context [recompile_loop X ?l ?b ?s ?p ?k] =>
      pose proof (recompile_loop_spec X l b s p k) as [L C];
      pose proof (recompile_loop_cycles_range X l b s p k) as Rg;
      destruct (recompile_loop X l b s p k) as [blk1 j1]
  end.
  cbn [fst opcode_list cycles] in L, C, Rg.
  destruct (jit_ret_emit X j1) as [f j2].
  intros E. injection E as <- _. cbn [opcode_list cycles set_function].
  rewrite L. rewrite (u32_small (cycles blk1)) in C by (apply Rg; lia).
  rewrite Z.add_0_l in C.
  split; [reflexivity|]. split; [exact C|].
  intros Hs. rewrite C. now apply u32_small.
Qed.

Lemma recompile_cycles_witness :
  lightrec_recompile_block toy [ramZ] (stateZ []) 0
    = (Some toy_block, set_jit (stateZ []) 2) /\
  opcode_list toy_block = [insn 4 8; insn 0x23 0; 0; insn 0x28 0] /\
  cycles toy_block = 2 + 2 + 2 + 2.
Proof.
  split; [reflexivity|]. split; [reflexivity|].
  apply (recompile_cycles toy [ramZ] (stateZ []) 0 toy_block
           (set_jit (stateZ []) 2) eq_refl).
  vm_compute. split; congruence.
Defined.

(** ** The executor *)

Lemma recompile_none {J} (X : collaborators J) (map : list (lightrec_mem_map J))
    state pc0 state' :
  lightrec_recompile_block X map state pc0 = (None, state') ->
  state' = state \/ state' = ERROR (snd (malloc state)) ErrRecompileNoMem.
Proof.
  unfold lightrec_recompile_block.
  destruct (find_code_address map pc0 =? 0); [intros E; left; congruence|].
  assert (mem (snd (malloc state)) = mem state) as Hm
    by (unfold malloc; now destruct (heap state)).
  destruct (malloc state) as [ok state1]. cbn [snd] in *.
  destruct ok; cbn [negb]; [|intros E; right; congruence].
  destruct (lightrec_disassemble X (mem state1) (find_code_address map pc0));
    [intros E; right; congruence|].
  destruct (jit_new_state X (jit state1)) as [[h j]|]; [|intros E; right; congruence].
  destruct (recompile_loop X _ _ _ _ _) as [blk1 j1].
  destruct (jit_ret_emit X j1). discriminate.
Qed.

(** C8.  When the block cache has no block for [pc] and the recompiler
    returns null, [lightrec_execute] logs the failure and returns [pc]: the
    block cache is as before, and the log has gained the message of the
    recompiler, if any, and the message of the executor, and no call of the
    wrapper. *)
Theorem execute_recompile_failure {J} (X : collaborators J)
    (map : list (lightrec_mem_map J)) (state : lightrec_state J) (pc0 : Z)
    (w : block) (state' : lightrec_state J) :
  wrapper state = Some w ->
  lightrec_find_block (block_cache state) pc0 = None ->
  lightrec_recompile_block X map state pc0 = (None, state') ->
  exists final,
    lightrec_execute X map state pc0 = Returned (pc0, final) /\
    block_cache final = block_cache state /\
    (log final = log state ++ [ErrRecompileAt pc0] \/
     log final = log state ++ [ErrRecompileNoMem; ErrRecompileAt pc0]) /\
    current final = current state /\ next_pc final = next_pc state /\
    stop final = stop state /\ block_exit_flags final = block_exit_flags state /\
    block_exit_cycles final = block_exit_cycles state /\
    mem final = mem state /\ jit final = jit state.
Proof.
  intros W F R. exists (ERROR state' (ErrRecompileAt pc0)).
  unfold lightrec_execute. rewrite W, F, R. split; [reflexivity|].
  destruct (recompile_none X map state pc0 state' R) as [-> | ->].
  - repeat split. now left.
  - unfold malloc. destruct (heap state); cbn; repeat split;
      right; now rewrite <- app_assoc.
Qed.

Lemma execute_recompile_failure_witness :
  wrapper (stateZ [false]) = Some (mkblock 0 0 7 0x4000 [] 0 0) /\
  lightrec_find_block (block_cache (stateZ [false])) 0 = None /\
  lightrec_recompile_block toy [ramZ] (stateZ [false]) 0
    = (None, ERROR (stateZ []) ErrRecompileNoMem) /\
  exists final,
    lightrec_execute toy [ramZ] (stateZ [false]) 0 = Returned (0, final) /\
    block_cache final = [] /\
    log final = [ErrRecompileNoMem; ErrRecompileAt 0].
Proof.
  split; [reflexivity|]. split; [reflexivity|]. split; [reflexivity|].
  destruct (execute_recompile_failure toy [ramZ] (stateZ [false]) 0
              (mkblock 0 0 7 0x4000 [] 0 0) (ERROR (stateZ []) ErrRecompileNoMem)
              eq_refl eq_refl eq_refl) as (final & E & C & L & _).
  exists final. split; [exact E|]. split; [exact C|].
  injection E as <-. reflexivity.
Defined.

(** ** Initialisation *)

(** C7 fails on the code: [lightrec_init] tests none of its allocations and
    has no path that returns null.  When [calloc] fails it writes through the
    null state; when the block of the address lookup cannot be allocated it
    reads through the null block; when the block of the wrapper cannot be
    allocated it goes on, and what it returns, if it comes to return, is a
    state whose [wrapper] is null, as it does with the collaborators
    [toy]. *)
Theorem init_allocation_failures {J} (X : collaborators J) (m : hostmem)
    (l : list log_entry) (h : list bool) (j : J)
    (map : list (lightrec_mem_map J)) (nb cop : Z) :
  lightrec_init X m l (false :: h) j map nb cop = NullDeref /\
  (forall ok, lightrec_init X m l (true :: ok :: false :: h) j map nb cop = NullDeref) /\
  match lightrec_init X m l (true :: false :: h) j map nb cop with
  | Returned (_, state) => wrapper state = None
  | NullDeref => True
  end /\
  match lightrec_init toy mem0 [] [true; false] 0 [ramZ] 1 0 with
  | Returned (_, state) => wrapper state = None /\ log state = [ErrWrapperNoMem]
  | NullDeref => False
  end.
Proof.
  split; [reflexivity|]. split; [|split].
  - intros ok. unfold lightrec_init, generate_wrapper_block. cbn [negb].
    destruct ok; cbn -[generate_address_lookup_block]; [|reflexivity].
    destruct (jit_new_state X _) as [[hd j1]|]; [|reflexivity].
    now destruct (jit_emit_wrapper X j1) as [[f e] j2].
  - unfold lightrec_init, generate_wrapper_block, generate_address_lookup_block.
    cbn. destruct h as [|[|] h']; cbn; try exact I;
      destruct (jit_new_state X _) as [[hd j1]|]; cbn; try exact I;
      now destruct (jit_emit_address_lookup X nb j1).
  - vm_compute. split; reflexivity.
Qed.

(** * Further properties of the code *)

(** ** The mask macro and the segments *)

(** [GENMASK(h, l)] has the bits [l] to [h] set and no other, for [h] and [l]
    below the width of [unsigned long] (the shift counts for which C defines
    the macro); it is 0 when [l] is above [h]. *)
Theorem GENMASK_bits (h l : Z) :
  0 <= h < __WORDSIZE -> 0 <= l < __WORDSIZE ->
  (forall i, 0 <= i -> Z.testbit (GENMASK h l) i = (l <=? i) && (i <=? h)) /\
  (h < l -> GENMASK h l = 0).
Proof.
  intros Hh Hl.
  assert (forall i, 0 <= i -> Z.testbit (GENMASK h l) i = (l <=? i) && (i <=? h)) as B.
  { intros i Hi. unfold GENMASK, ulong, __WORDSIZE in *.
    change (Z.lnot 0) with (-1).
    Z.bitblast_core;
      destruct (Z.leb_spec l i), (Z.leb_spec i h); try reflexivity; lia. }
  split; [exact B|].
  intros Hlt. apply Z.bits_inj'. intros i Hi. rewrite B, Z.bits_0 by lia.
  destruct (Z.leb_spec l i), (Z.leb_spec i h); try reflexivity; lia.
Qed.

Lemma GENMASK_bits_witness :
  Z.testbit (GENMASK 15 8) 8 = true /\ Z.testbit (GENMASK 15 8) 16 = false /\
  GENMASK 31 32 = 0.
Proof.
  destruct (GENMASK_bits 15 8 ltac:(unfold __WORDSIZE; lia)
              ltac:(unfold __WORDSIZE; lia)) as [B _].
  destruct (GENMASK_bits 31 32 ltac:(unfold __WORDSIZE; lia)
              ltac:(unfold __WORDSIZE; lia)) as [_ Z0].
  split; [rewrite B by lia; reflexivity|].
  split; [rewrite B by lia; reflexivity|]. apply Z0. lia.
Defined.

Lemma kunseg_below a : 0 <= a < 2 ^ 32 -> 0 <= kunseg a < 0x80000000.
Proof.
  intros Ha. unfold kunseg.
  destruct (Z.geb_spec a 0xa0000000); [rewrite u32_small; lia|].
  destruct (Z.geb_spec a 0x80000000); [rewrite u32_small; lia|lia].
Qed.

(** [kunseg] maps every 32-bit address below 0x80000000, and applying it
    twice is applying it once. *)
Theorem kunseg_idempotent (a : Z) :
  0 <= a < 2 ^ 32 ->
  0 <= kunseg a < 0x80000000 /\ kunseg (kunseg a) = kunseg a.
Proof.
  intros Ha. pose proof (kunseg_below a Ha) as R.
  split; [exact R|]. unfold kunseg at 1.
  destruct (Z.geb_spec (kunseg a) 0xa0000000); [lia|].
  destruct (Z.geb_spec (kunseg a) 0x80000000); [lia|reflexivity].
Qed.

Lemma kunseg_idempotent_witness :
  0 <= kunseg 0xbfc00180 < 0x80000000 /\ kunseg (kunseg 0xbfc00180) = kunseg 0xbfc00180.
Proof. apply (kunseg_idempotent 0xbfc00180). lia. Defined.


Lemma resolve_some {J} (map : list (lightrec_mem_map J)) addr m :
  resolve map addr = Some m -> In m map /\ map_selects addr m = true.
Proof. apply find_some. Qed.

Lemma map_contains_bounds {J} (m : lightrec_mem_map J) a :
  map_contains m a = true -> map_pc m <= a < u32 (map_pc m + map_length m).
Proof.
  unfold map_contains. intros H. apply andb_prop in H as [H1 H2].
  apply Z.leb_le in H1. apply Z.ltb_lt in H2. lia.
Qed.



(** ** Loads and stores in direct memory *)

Lemma rw_direct_not_store {J} (state : lightrec_state J) op kaddr data h :
  is_store op = false -> snd (rw_direct state op kaddr data h) = state.
Proof.
  unfold is_store, rw_direct. intros H.
  repeat (apply orb_false_elim in H as [H ?]).
  repeat match goal with E : (_ =? _) = false |- _ => rewrite E; clear E end.
  repeat match goal with |- context [if ?c then _ else _] => destruct c end;
    reflexivity.
Qed.

(** In direct memory an access whose op code is none of SB, SH, SWL, SWR and
    SW leaves the state, host memory included, as it was. *)
Theorem rw_load_keeps_state {J} (map : list (lightrec_mem_map J))
    (state : lightrec_state J) (op : opcode) (base data : Z)
    (m : lightrec_mem_map J) :
  resolve map (effective_address base op) = Some m -> map_ops m = None ->
  is_store op = false ->
  snd (lightrec_rw map state op base data) = state.
Proof.
  intros R O S. rewrite lightrec_rw_resolve, R, O. now apply rw_direct_not_store.
Qed.

Lemma rw_load_keeps_state_witness :
  resolve [ram] (effective_address 0 (insn OP_LWL 2)) = Some ram /\
  snd (lightrec_rw [ram] state0 (insn OP_LWL 2) 0 0x11223344) = state0.
Proof.
  split; [reflexivity|].
  apply (rw_load_keeps_state [ram] state0 (insn OP_LWL 2) 0 0x11223344 ram);
    reflexivity.
Defined.

Lemma store8_other m a v x : x <> a -> store8 m a v x = m x.
Proof.
  intros H. unfold store8.
  destruct (Z.lt_ge_cases x a); [now apply store_bytes_below|].
  apply store_bytes_above. rewrite length_le_split. lia.
Qed.

Lemma store16_other m a v x : x < a \/ a + 2 <= x -> store16 m a v x = m x.
Proof.
  intros [H|H]; unfold store16.
  - now apply store_bytes_below.
  - apply store_bytes_above. rewrite length_le_split. lia.
Qed.

Lemma load16_store16 m a v : load16 (store16 m a v) a = u16 v.
Proof.
  unfold load16, store16.
  change 2%nat with (length (le_split 2 v)) at 1.
  rewrite load_store_bytes. apply le_combine_split.
Qed.

Lemma u8_u8 x : u8 (u8 x) = u8 x.
Proof. unfold u8. apply Z.mod_mod. lia. Qed.

Lemma u16_u16 x : u16 (u16 x) = u16 x.
Proof. unfold u16. apply Z.mod_mod. lia. Qed.

Lemma rw_direct_SH {J} (state : lightrec_state J) op kaddr data h :
  i_op op = OP_SH ->
  rw_direct state op kaddr data h = (0, set_mem state (store16 (mem state) h (u16 data))).
Proof. intros H. unfold rw_direct. now rewrite H. Qed.

Lemma rw_direct_SW {J} (state : lightrec_state J) op kaddr data h :
  i_op op = OP_SW ->
  rw_direct state op kaddr data h = (0, set_mem state (store32 (mem state) h data)).
Proof. intros H. unfold rw_direct. now rewrite H. Qed.

(** The footprint of SB, SH and SW in direct memory: the engine returns 0,
    writes the low 1, 2 or 4 bytes of the data at the host address, changes
    no other byte of host memory and no other field of the state. *)
Theorem rw_store_footprint {J} (map : list (lightrec_mem_map J))
    (state : lightrec_state J) (op : opcode) (base data : Z)
    (m : lightrec_mem_map J) :
  let h := host_address m (effective_address base op) in
  let r := lightrec_rw map state op base data in
  resolve map (effective_address base op) = Some m -> map_ops m = None ->
  (i_op op = OP_SB ->
     r = (0, set_mem state (mem (snd r))) /\ load8 (mem (snd r)) h = u8 data /\
     forall x, x <> h -> mem (snd r) x = mem state x) /\
  (i_op op = OP_SH ->
     r = (0, set_mem state (mem (snd r))) /\ load16 (mem (snd r)) h = u16 data /\
     forall x, x < h \/ h + 2 <= x -> mem (snd r) x = mem state x) /\
  (i_op op = OP_SW ->
     r = (0, set_mem state (mem (snd r))) /\ load32 (mem (snd r)) h = u32 data /\
     forall x, x < h \/ h + 4 <= x -> mem (snd r) x = mem state x).
Proof.
  intros h r R O. subst r. rewrite lightrec_rw_resolve, R, O. fold h.
  split; [|split]; intros S.
  - rewrite (rw_direct_SB _ _ _ _ _ S). cbn [snd mem set_mem].
    split; [reflexivity|]. split; [now rewrite load8_store8, u8_u8|].
    intros x Hx. now apply store8_other.
  - rewrite (rw_direct_SH _ _ _ _ _ S). cbn [snd mem set_mem].
    split; [reflexivity|]. split; [now rewrite load16_store16, u16_u16|].
    intros x Hx. now apply store16_other.
  - rewrite (rw_direct_SW _ _ _ _ _ S). cbn [snd mem set_mem].
    split; [reflexivity|]. split; [apply load32_store32|].
    intros x Hx. now apply store32_other.
Qed.

Lemma rw_store_footprint_witness :
  resolve [ram] (effective_address 0 (insn OP_SH 1)) = Some ram /\
  load16 (mem (snd (lightrec_rw [ram] state0 (insn OP_SH 1) 0 0x12345))) 0x10001
  = 0x2345 /\
  load32 (mem (snd (lightrec_rw [ram] state0 (insn OP_SH 1) 0 0x12345))) 0x10000
  = 0xAA2345DD.
Proof.
  split; [reflexivity|].
  split; [|reflexivity].
  apply (rw_store_footprint [ram] state0 (insn OP_SH 1) 0 0x12345 ram eq_refl eq_refl).
  reflexivity.
Defined.

Lemma rw_direct_LW {J} (state : lightrec_state J) op kaddr data h :
  is_store op = false ->
  i_op op <> OP_LB -> i_op op <> OP_LBU -> i_op op <> OP_LH ->
  i_op op <> OP_LHU -> i_op op <> OP_LWL -> i_op op <> OP_LWR ->
  rw_direct state op kaddr data h = (load32 (mem state) h, state).
Proof.
  unfold is_store, rw_direct. intros H.
  repeat (apply orb_false_elim in H as [H ?]).
  repeat match goal with E : (_ =? _) = false |- _ => rewrite E; clear E end.
  intros.
  repeat match goal with
         | |- context [?a =? ?b] => destruct (Z.eqb_spec a b); [contradiction|]
         end.
  reflexivity.
Qed.

Lemma rw_direct_LH {J} (state : lightrec_state J) op kaddr data h :
  i_op op = OP_LH ->
  rw_direct state op kaddr data h = (u32 (s32 (s16 (load16 (mem state) h))), state).
Proof. intros H. unfold rw_direct. now rewrite H. Qed.

Lemma rw_direct_LHU {J} (state : lightrec_state J) op kaddr data h :
  i_op op = OP_LHU ->
  rw_direct state op kaddr data h = (load16 (mem state) h, state).
Proof. intros H. unfold rw_direct. now rewrite H. Qed.

Lemma rw_direct_LB {J} (state : lightrec_state J) op kaddr data h :
  i_op op = OP_LB ->
  rw_direct state op kaddr data h = (u32 (s32 (s8 (load8 (mem state) h))), state).
Proof. intros H. unfold rw_direct. now rewrite H. Qed.

(** What is stored in direct memory is what is loaded back from the same
    address: LW after SW returns the data, LHU after SH its low halfword and
    LH the sign-extension of that, LB after SB the sign-extension of its low
    byte. *)
Theorem rw_store_then_load {J} (map : list (lightrec_mem_map J))
    (state : lightrec_state J) (op_s op_l : opcode) (base data any : Z)
    (m : lightrec_mem_map J) :
  let state1 := snd (lightrec_rw map state op_s base data) in
  let r := fst (lightrec_rw map state1 op_l base any) in
  i_imm op_l = i_imm op_s ->
  resolve map (effective_address base op_s) = Some m -> map_ops m = None ->
  (i_op op_s = OP_SW -> i_op op_l = OP_LW -> r = u32 data) /\
  (i_op op_s = OP_SH -> i_op op_l = OP_LHU -> r = u16 data) /\
  (i_op op_s = OP_SH -> i_op op_l = OP_LH -> r = sign_extend 16 (u16 data)) /\
  (i_op op_s = OP_SB -> i_op op_l = OP_LB -> r = sign_extend 8 (u8 data)).
Proof.
  intros state1 r I R O.
  assert (effective_address base op_l = effective_address base op_s) as A
    by (unfold effective_address; now rewrite I).
  subst r state1.
  rewrite (rw_at_direct map _ op_l base any _ m A R O).
  rewrite (rw_at_direct map _ op_s base data _ m eq_refl R O).
  repeat split; intros S L.
  - rewrite (rw_direct_SW _ _ _ _ _ S), rw_direct_LW; cbn [snd fst mem set_mem].
    + apply load32_store32.
    + unfold is_store. now rewrite L.
    + now rewrite L.
    + now rewrite L.
    + now rewrite L.
    + now rewrite L.
    + now rewrite L.
    + now rewrite L.
  - rewrite (rw_direct_SH _ _ _ _ _ S), (rw_direct_LHU _ _ _ _ _ L).
    cbn [snd fst mem set_mem]. now rewrite load16_store16, u16_u16.
  - rewrite (rw_direct_SH _ _ _ _ _ S), (rw_direct_LH _ _ _ _ _ L).
    cbn [snd fst mem set_mem]. rewrite load16_store16, u16_u16.
    apply sign_extend_16, u16_range.
  - rewrite (rw_direct_SB _ _ _ _ _ S), (rw_direct_LB _ _ _ _ _ L).
    cbn [snd fst mem set_mem]. rewrite load8_store8, u8_u8.
    apply sign_extend_8, u8_range.
Qed.

Lemma rw_store_then_load_witness :
  resolve [ram] (effective_address 0x80000000 (insn OP_SH 6)) = Some ram /\
  fst (lightrec_rw [ram]
         (snd (lightrec_rw [ram] state0 (insn OP_SH 6) 0x80000000 0x18001))
         (insn OP_LH 6) 0x80000000 0) = 0xFFFF8001.
Proof.
  split; [reflexivity|].
  apply (rw_store_then_load [ram] state0 (insn OP_SH 6) (insn OP_LH 6) 0x80000000
           0x18001 0 ram eq_refl eq_refl eq_refl); reflexivity.
Defined.

(** ** What the engine returns and what it leaves alone *)

Lemma u32_fixed x : 0 <= x < 2 ^ 32 <-> u32 x = x.
Proof.
  split; [apply u32_small|]. intros <-. apply u32_range.
Qed.

Lemma u32_lor a b : 0 <= a < 2 ^ 32 -> 0 <= b < 2 ^ 32 -> 0 <= Z.lor a b < 2 ^ 32.
Proof.
  intros Ha Hb. apply u32_fixed. apply Z.bits_inj'. intros i Hi.
  rewrite u32_bits, Z.lor_spec by lia.
  destruct (Z.ltb_spec i 32); [reflexivity|].
  now rewrite (bits_above_u32 a), (bits_above_u32 b) by lia.
Qed.

Lemma u32_land_l a b : 0 <= a < 2 ^ 32 -> 0 <= Z.land a b < 2 ^ 32.
Proof.
  intros Ha. apply u32_fixed. apply Z.bits_inj'. intros i Hi.
  rewrite u32_bits, Z.land_spec by lia.
  destruct (Z.ltb_spec i 32); [reflexivity|].
  now rewrite (bits_above_u32 a) by lia.
Qed.

Lemma u32_shiftr a n : 0 <= a < 2 ^ 32 -> 0 <= n -> 0 <= Z.shiftr a n < 2 ^ 32.
Proof.
  intros Ha Hn. apply u32_fixed. apply Z.bits_inj'. intros i Hi.
  rewrite u32_bits, Z.shiftr_spec by lia.
  destruct (Z.ltb_spec i 32); [reflexivity|].
  now rewrite (bits_above_u32 a) by lia.
Qed.

Lemma u8_in_u32 x : 0 <= u8 x < 2 ^ 32.
Proof. pose proof (u8_range x). lia. Qed.

Lemma u16_in_u32 x : 0 <= u16 x < 2 ^ 32.
Proof. pose proof (u16_range x). lia. Qed.

Lemma rw_direct_range {J} (state : lightrec_state J) op kaddr data h :
  0 <= data < 2 ^ 32 -> 0 <= fst (rw_direct state op kaddr data h) < 2 ^ 32.
Proof.
  intros Hd. unfold rw_direct.
  pose proof (load8_range (mem state) h). pose proof (load16_range (mem state) h).
  repeat match goal with
         | |- context [if ?c then _ else _] => destruct c
         end; cbn [fst]; try lia; try apply u32_range; try apply load32_range.
  - apply u32_lor; [now apply u32_land_l|apply u32_range].
  - apply u32_lor; [now apply u32_land_l|].
    apply u32_shiftr; [apply load32_range|apply u32_range].
Qed.

Lemma lightrec_rw_ops_range {J} (state : lightrec_state J) op ops addr data :
  0 <= fst (lightrec_rw_ops state op ops addr data) < 2 ^ 32.
Proof.
  unfold lightrec_rw_ops.
  repeat match goal with
         | |- context [if ?c then _ else _] => destruct c
         end; cbn [fst]; try lia;
    match goal with
    | |- context [let (_, _) := ?p in _] => destruct p
    end; cbn [fst];
    first [apply u32_range | apply u8_in_u32 | apply u16_in_u32].
Qed.

(** Whatever the map, the op code and the address, the value that the engine
    returns for a 32-bit data register is a 32-bit value. *)
Theorem rw_returns_u32 {J} (map : list (lightrec_mem_map J))
    (state : lightrec_state J) (op : opcode) (base data : Z) :
  0 <= data < 2 ^ 32 ->
  0 <= fst (lightrec_rw map state op base data) < 2 ^ 32.
Proof.
  intros Hd. rewrite lightrec_rw_resolve.
  destruct (resolve map _) as [m|]; [|cbn; lia].
  destruct (map_ops m); [apply lightrec_rw_ops_range|now apply rw_direct_range].
Qed.

Lemma rw_returns_u32_witness :
  0 <= fst (lightrec_rw [dev; ram] state0 (insn OP_LWR 3) 0 0xFFFFFFFF) < 2 ^ 32.
Proof.
  apply (rw_returns_u32 [dev; ram] state0 (insn OP_LWR 3) 0 0xFFFFFFFF). lia.
Defined.

Lemma set_mem_same {J} (state : lightrec_state J) : set_mem state (mem state) = state.
Proof. now destruct state. Qed.

Lemma rw_direct_frame {J} (state : lightrec_state J) op kaddr data h :
  snd (rw_direct state op kaddr data h)
  = set_mem state (mem (snd (rw_direct state op kaddr data h))).
Proof.
  unfold rw_direct.
  repeat match goal with
         | |- context [if ?c then _ else _] => destruct c
         end; cbn [snd mem set_mem]; solve [reflexivity | now rewrite set_mem_same].
Qed.

(** An access that resolves to direct memory changes host memory at most:
    [stop], the exit flags and the exit cycles, the current block, the next
    PC, the block cache and the log are as before. *)
Theorem rw_direct_memory_only {J} (map : list (lightrec_mem_map J))
    (state : lightrec_state J) (op : opcode) (base data : Z)
    (m : lightrec_mem_map J) :
  resolve map (effective_address base op) = Some m -> map_ops m = None ->
  snd (lightrec_rw map state op base data)
  = set_mem state (mem (snd (lightrec_rw map state op base data))).
Proof.
  intros R O. rewrite lightrec_rw_resolve, R, O. apply rw_direct_frame.
Qed.

Lemma rw_direct_memory_only_witness :
  resolve [ram] (effective_address 0 (insn OP_SWR 5)) = Some ram /\
  snd (lightrec_rw [ram] state0 (insn OP_SWR 5) 0 0x11223344)
  = set_mem state0 (mem (snd (lightrec_rw [ram] state0 (insn OP_SWR 5) 0 0x11223344))).
Proof.
  split; [reflexivity|].
  apply (rw_direct_memory_only [ram] state0 (insn OP_SWR 5) 0 0x11223344 ram);
    reflexivity.
Defined.

Lemma rw_direct_op_code {J} (state : lightrec_state J) op op' kaddr data h :
  i_op op = i_op op' ->
  rw_direct state op kaddr data h = rw_direct state op' kaddr data h.
Proof. intros H. unfold rw_direct. now rewrite H. Qed.

(** In direct memory the engine sees the address only through [kunseg]: two
    accesses with the same op code and the same data whose addresses have the
    same image by [kunseg] (the same offset in kuseg, kseg0 or kseg1) return
    the same value and leave the same state. *)
Theorem rw_direct_mirrors {J} (map : list (lightrec_mem_map J))
    (state : lightrec_state J) (op op' : opcode) (base base' data : Z)
    (m m' : lightrec_mem_map J) :
  i_op op = i_op op' ->
  kunseg (effective_address base op) = kunseg (effective_address base' op') ->
  resolve map (effective_address base op) = Some m -> map_ops m = None ->
  resolve map (effective_address base' op') = Some m' -> map_ops m' = None ->
  lightrec_rw map state op base data = lightrec_rw map state op' base' data.
Proof.
  intros I K R O R' O'.
  assert (m = m') as <- by exact (resolve_direct_same map _ _ _ _ K R O R' O').
  rewrite !lightrec_rw_resolve, R, R', O. unfold host_address. rewrite K.
  now apply rw_direct_op_code.
Qed.

Lemma rw_direct_mirrors_witness :
  kunseg (effective_address 0xa0000000 (insn OP_LWL 5))
  = kunseg (effective_address 0x9 (insn OP_LWL 0xfffc)) /\
  lightrec_rw [dev; ram] state0 (insn OP_LWL 5) 0xa0000000 0x11223344
  = lightrec_rw [dev; ram] state0 (insn OP_LWL 0xfffc) 0x9 0x11223344.
Proof.
  split; [reflexivity|].
  apply (rw_direct_mirrors [dev; ram] state0 (insn OP_LWL 5) (insn OP_LWL 0xfffc)
           0xa0000000 0x9 0x11223344 ram ram); reflexivity.
Defined.

(** An op code that is none of the twelve loads and stores is served as LW is:
    in direct memory the engine returns the word at the host address and
    leaves the state; in an MMIO region it calls the [lw] callback. *)
Theorem rw_unknown_op_is_lw {J} (map : list (lightrec_mem_map J))
    (state : lightrec_state J) (op : opcode) (base data : Z)
    (m : lightrec_mem_map J) :
  let addr := effective_address base op in
  resolve map addr = Some m ->
  is_store op = false ->
  i_op op <> OP_LB -> i_op op <> OP_LBU -> i_op op <> OP_LH ->
  i_op op <> OP_LHU -> i_op op <> OP_LWL -> i_op op <> OP_LWR ->
  lightrec_rw map state op base data =
  match map_ops m with
  | None => (load32 (mem state) (host_address m addr), state)
  | Some ops => (u32 (fst (lw ops state op addr)), snd (lw ops state op addr))
  end.
Proof.
  intros addr R S N1 N2 N3 N4 N5 N6. rewrite lightrec_rw_resolve. fold addr.
  rewrite R. destruct (map_ops m) as [ops|]; [|now apply rw_direct_LW].
  unfold lightrec_rw_ops, is_store in *.
  repeat (apply orb_false_elim in S as [S ?]).
  repeat match goal with E : (_ =? _) = false |- _ => rewrite E; clear E end.
  cbn [orb].
  repeat match goal with
         | |- context [?a =? ?b] => destruct (Z.eqb_spec a b); [contradiction|]
         end.
  now destruct (lw ops state op addr).
Qed.

Lemma rw_unknown_op_is_lw_witness :
  resolve [dev; ram] (effective_address 4 (insn 0x09 0xfffc)) = Some ram /\
  lightrec_rw [dev; ram] state0 (insn 0x09 0xfffc) 4 0x11223344
  = (0xAABBCCDD, state0).
Proof.
  split; [reflexivity|].
  apply (rw_unknown_op_is_lw [dev; ram] state0 (insn 0x09 0xfffc) 4 0x11223344 ram);
    solve [reflexivity | vm_compute; congruence].
Defined.

(** ** The unaligned idiom: the left access at [A + 3], the right one at [A] *)

Lemma load8_byte m a : load8 m a = byte.unsigned (m a).
Proof. unfold load8. cbn [load_bytes]. apply le_combine_1. Qed.

Lemma le_combine_cons b t :
  le_combine (b :: t) = Z.lor (byte.unsigned b) (Z.shiftl (le_combine t) 8).
Proof. reflexivity. Qed.

Lemma byte_bits_high b i : 8 <= i -> Z.testbit (byte.unsigned b) i = false.
Proof.
  intros Hi. pose proof (byte.unsigned_range b) as R.
  rewrite <- (Z.mod_small _ _ R). apply Z.mod_pow2_bits_high. lia.
Qed.

Lemma div_mod_8 y b : 0 <= b < 8 -> (8 * y + b) / 8 = y /\ (8 * y + b) mod 8 = b.
Proof. intros Hb. Z.div_mod_to_equations. lia. Qed.

Lemma membit_byte m y b : 0 <= b < 8 ->
  membit m (8 * y + b) = Z.testbit (byte.unsigned (m y)) b.
Proof.
  intros Hb. unfold membit. destruct (div_mod_8 y b Hb) as [-> ->].
  now rewrite load8_byte.
Qed.

Lemma load32_bit m x i : 0 <= i ->
  Z.testbit (load32 m x) i = (i <? 32) && membit m (8 * x + i).
Proof.
  intros Hi. unfold load32. cbn [load_bytes].
  rewrite !le_combine_cons, le_combine_nil.
  destruct (Z.ltb_spec i 32); cbn [andb].
  - assert (i < 8 \/ 8 <= i < 16 \/ 16 <= i < 24 \/ 24 <= i) as [L|[L|[L|L]]] by lia.
    + rewrite membit_byte by lia.
      rewrite Z.lor_spec, (Z.shiftl_spec_low _ 8 i), orb_false_r by lia. reflexivity.
    + replace (8 * x + i) with (8 * (x + 1) + (i - 8)) by lia.
      rewrite membit_byte by lia.
      rewrite Z.lor_spec, byte_bits_high, Z.shiftl_spec by lia. cbn [orb].
      rewrite Z.lor_spec, (Z.shiftl_spec_low _ 8 (i - 8)), orb_false_r by lia.
      reflexivity.
    + replace (8 * x + i) with (8 * (x + 1 + 1) + (i - 8 - 8)) by lia.
      rewrite membit_byte by lia.
      rewrite Z.lor_spec, byte_bits_high, Z.shiftl_spec by lia. cbn [orb].
      rewrite Z.lor_spec, byte_bits_high, Z.shiftl_spec by lia. cbn [orb].
      rewrite Z.lor_spec, (Z.shiftl_spec_low _ 8 (i - 8 - 8)), orb_false_r by lia.
      reflexivity.
    + replace (8 * x + i) with (8 * (x + 1 + 1 + 1) + (i - 8 - 8 - 8)) by lia.
      rewrite membit_byte by lia.
      rewrite Z.lor_spec, byte_bits_high, Z.shiftl_spec by lia. cbn [orb].
      rewrite Z.lor_spec, byte_bits_high, Z.shiftl_spec by lia. cbn [orb].
      rewrite Z.lor_spec, byte_bits_high, Z.shiftl_spec by lia. cbn [orb].
      rewrite Z.lor_spec, Z.shiftl_0_l, Z.bits_0, orb_false_r. reflexivity.
  - apply bits_above_u32; [apply load32_range|lia].
Qed.

Lemma byte_of_Z_bit v b : 0 <= b < 8 ->
  Z.testbit (byte.unsigned (byte.of_Z v)) b = Z.testbit v b.
Proof.
  intros Hb. rewrite byte.unsigned_of_Z. unfold byte.wrap.
  rewrite Z.testbit_mod_pow2 by lia.
  destruct (Z.ltb_spec b 8); [reflexivity|lia].
Qed.

Lemma store32_byte m x v y :
  store32 m x v y =
  if y =? x + 1 + 1 + 1 then byte.of_Z (Z.shiftr (Z.shiftr (Z.shiftr v 8) 8) 8)
  else if y =? x + 1 + 1 then byte.of_Z (Z.shiftr (Z.shiftr v 8) 8)
  else if y =? x + 1 then byte.of_Z (Z.shiftr v 8)
  else if y =? x then byte.of_Z v
  else m y.
Proof. reflexivity. Qed.

Lemma membit_store32 m x v n :
  membit (store32 m x v) n =
  if (8 * x <=? n) && (n <? 8 * x + 32) then Z.testbit v (n - 8 * x)
  else membit m n.
Proof.
  pose proof (Z.div_mod n 8 ltac:(lia)) as E.
  pose proof (Z.mod_pos_bound n 8 ltac:(lia)) as B.
  set (y := n / 8) in *. set (b := n mod 8) in *.
  rewrite E, !membit_byte, store32_byte by lia.
  repeat match goal with
         | |- context [?a =? ?c] => destruct (Z.eqb_spec a c)
         end;
    destruct (Z.leb_spec (8 * x) (8 * y + b)), (Z.ltb_spec (8 * y + b) (8 * x + 32));
    cbn [andb]; try lia; try reflexivity;
    rewrite byte_of_Z_bit, ?Z.shiftr_spec by lia; f_equal; lia.
Qed.

Lemma land_lnot_3 h : Z.land h (Z.lnot 3) = h - h mod 4.
Proof.
  rewrite <- Z.ldiff_land. change 3 with (Z.ones 2).
  rewrite Z.ldiff_ones_r, Z.shiftr_div_pow2, Z.shiftl_mul_pow2 by lia.
  change (2 ^ 2) with 4. Z.div_mod_to_equations. lia.
Qed.

Lemma land_3 k : Z.land k 3 = k mod 4.
Proof. change 3 with (Z.ones 2). now rewrite Z.land_ones by lia. Qed.

Ltac wordbits :=
  repeat first
    [ rewrite Z.lor_spec
    | rewrite Z.land_spec
    | rewrite u32_bits by lia
    | rewrite GENMASK_31_bits by lia
    | rewrite Z.shiftl_spec by lia
    | rewrite Z.shiftr_spec by lia
    | rewrite Z.testbit_ones_nonneg by lia
    | rewrite load32_bit by lia
    | rewrite membit_store32
    | match goal with
      | |- context [Z.testbit ?a ?n] => rewrite (Z.testbit_neg_r a n) by lia
      | Ha : 0 <= ?a < 2 ^ 32 |- context [Z.testbit ?a ?n] =>
          rewrite (bits_above_u32 a n Ha) by lia
      end ].

Ltac bool_simpl :=
  cbn [andb orb negb];
  rewrite ?andb_false_r, ?andb_true_r, ?orb_false_r, ?orb_false_l, ?orb_true_r.

(** LWL on the word of [h + 3] at shift [s3], then LWR on the word of [h] at
    shift [s]: the four bytes at [h]. *)
Lemma lwl_lwr_word m h s s3 d :
  h mod 4 = s -> (h + 3) mod 4 = s3 ->
  (s = 0 /\ s3 = 3) \/ (1 <= s <= 3 /\ s3 = s - 1) ->
  let w_hi := load32 m (Z.land (h + 3) (Z.lnot 3)) in
  let w_lo := load32 m (Z.land h (Z.lnot 3)) in
  let r1 := Z.lor (Z.land d (u32 (Z.shiftl 1 (u32 (24 - s3 * 8)) - 1)))
                  (u32 (Z.shiftl w_hi (u32 (24 - s3 * 8)))) in
  Z.lor (Z.land r1 (u32 (GENMASK 31 (u32 (32 - s * 8)))))
        (Z.shiftr w_lo (u32 (s * 8)))
  = load32 m h.
Proof.
  intros Hs Hs3 C w_hi w_lo r1. subst r1 w_lo w_hi.
  rewrite !land_lnot_3, Hs, Hs3.
  rewrite (u32_small (24 - s3 * 8)), (u32_small (32 - s * 8)), (u32_small (s * 8))
    by lia.
  rewrite Z.shiftl_1_l, Z.sub_1_r, <- Z.ones_equiv.
  apply Z.bits_inj'. intros i Hi.
  destruct C as [[-> ->]|[C ->]];
    repeat (progress (wordbits; split_tests; bool_simpl)); try reflexivity; f_equal; lia.
Qed.

(** SWL of [v] on the word of [h + 3] at shift [s3], then SWR of [v] on the
    word of [h] at shift [s]: the memory, bit by bit. *)
Lemma swl_swr_word m h s s3 v n :
  h mod 4 = s -> (h + 3) mod 4 = s3 ->
  (s = 0 /\ s3 = 3) \/ (1 <= s <= 3 /\ s3 = s - 1) ->
  0 <= v < 2 ^ 32 ->
  let a3 := Z.land (h + 3) (Z.lnot 3) in
  let a0 := Z.land h (Z.lnot 3) in
  let m1 := store32 m a3
              (Z.lor (Z.shiftr v (u32 ((3 - s3) * 8)))
                     (Z.land (load32 m a3) (u32 (GENMASK 31 (u32 (s3 * 8 + 9)))))) in
  let m2 := store32 m1 a0
              (Z.lor (u32 (Z.shiftl v (u32 (s * 8))))
                     (Z.land (load32 m1 a0) (u32 (Z.shiftl 1 (u32 (s * 8)) - 1)))) in
  membit m2 n =
  if (8 * h <=? n) && (n <? 8 * h + 32) then Z.testbit v (n - 8 * h)
  else if (n =? 8 * h + 32) && negb (s =? 0) then false
  else membit m n.
Proof.
  intros Hs Hs3 C Hv a3 a0 m1 m2. subst m2 m1 a0 a3.
  rewrite !land_lnot_3, Hs, Hs3.
  rewrite (u32_small ((3 - s3) * 8)), (u32_small (s3 * 8 + 9)), (u32_small (s * 8))
    by lia.
  rewrite Z.shiftl_1_l, Z.sub_1_r, <- Z.ones_equiv.
  destruct C as [[-> ->]|[C ->]];
    destruct (Z.eqb_spec n (8 * h + 32)); try lia;
    repeat (progress (wordbits; split_tests; bool_simpl));
    try (destruct (Z.eqb_spec s 0); [lia|]; bool_simpl);
    try reflexivity; try lia; f_equal; lia.
Qed.

Section Idiom.
Context {J : Type} (map : list (lightrec_mem_map J)) (m : lightrec_mem_map J).
Variables (a a3 : Z).
Hypothesis Hk : kunseg a3 = kunseg a + 3.
Hypothesis Ra : resolve map a = Some m.
Hypothesis Ra3 : resolve map a3 = Some m.
Hypothesis Om : map_ops m = None.
Hypothesis Hpc : 0 <= map_pc m.
Hypothesis Hal : Z.land (host_address m a) 3 = Z.land (kunseg a) 3.

Lemma idiom_host_address : host_address m a3 = host_address m a + 3.
Proof.
  apply resolve_some in Ra as [_ Sa]. apply resolve_some in Ra3 as [_ Sa3].
  unfold map_selects in Sa, Sa3. rewrite Om in Sa, Sa3.
  apply map_contains_bounds in Sa, Sa3.
  pose proof (u32_range (map_pc m + map_length m)).
  unfold host_address. rewrite Hk, !u32_small by lia. lia.
Qed.

Lemma idiom_shifts :
  host_address m a mod 4 = Z.land (kunseg a) 3 /\
  (host_address m a + 3) mod 4 = Z.land (kunseg a3) 3 /\
  ((Z.land (kunseg a) 3 = 0 /\ Z.land (kunseg a3) 3 = 3) \/
   (1 <= Z.land (kunseg a) 3 <= 3 /\
    Z.land (kunseg a3) 3 = Z.land (kunseg a) 3 - 1)).
Proof.
  rewrite Hk. rewrite !land_3 in *. Z.div_mod_to_equations. lia.
Qed.

(** LWL at [a3] then LWR at [a]. *)
Lemma rw_lwl_lwr_pair (state : lightrec_state J) (op_l op_r : opcode) (base d : Z) :
  effective_address base op_l = a3 -> effective_address base op_r = a ->
  i_op op_l = OP_LWL -> i_op op_r = OP_LWR ->
  lightrec_rw map (snd (lightrec_rw map state op_l base d)) op_r base
    (fst (lightrec_rw map state op_l base d))
  = (load32 (mem state) (host_address m a), state).
Proof.
  intros El Er Il Ir.
  rewrite (rw_at_direct map state op_l base d a3 m El Ra3 Om),
    (rw_direct_LWL _ _ _ _ _ Il).
  cbn [fst snd].
  rewrite (rw_at_direct map state op_r base _ a m Er Ra Om),
    (rw_direct_LWR _ _ _ _ _ Ir).
  f_equal. rewrite idiom_host_address.
  destruct idiom_shifts as (S0 & S3 & C).
  apply (lwl_lwr_word (mem state) (host_address m a) _ _ d S0 S3 C).
Qed.

(** SWL at [a3] then SWR at [a]: the state, and its memory bit by bit. *)
Lemma rw_swl_swr_pair (state : lightrec_state J) (op_l op_r : opcode) (base v : Z) :
  effective_address base op_l = a3 -> effective_address base op_r = a ->
  i_op op_l = OP_SWL -> i_op op_r = OP_SWR ->
  0 <= v < 2 ^ 32 ->
  let r := lightrec_rw map (snd (lightrec_rw map state op_l base v)) op_r base v in
  r = (0, set_mem state (mem (snd r))) /\
  forall n,
    membit (mem (snd r)) n =
    if (8 * host_address m a <=? n) && (n <? 8 * host_address m a + 32)
    then Z.testbit v (n - 8 * host_address m a)
    else if (n =? 8 * host_address m a + 32) && negb (Z.land (kunseg a) 3 =? 0)
         then false
         else membit (mem state) n.
Proof.
  intros El Er Il Ir Hv r. subst r.
  rewrite (rw_at_direct map state op_l base v a3 m El Ra3 Om),
    (rw_direct_SWL _ _ _ _ _ Il).
  cbn [fst snd].
  rewrite (rw_at_direct map _ op_r base v a m Er Ra Om),
    (rw_direct_SWR _ _ _ _ _ Ir).
  cbn [fst snd mem set_mem]. split; [reflexivity|].
  intros n. rewrite idiom_host_address.
  destruct idiom_shifts as (S0 & S3 & C).
  apply (swl_swr_word (mem state) (host_address m a) _ _ v n S0 S3 C Hv).
Qed.
End Idiom.

Lemma load32_from_bits m h v :
  0 <= v < 2 ^ 32 ->
  (forall i, 0 <= i < 32 -> membit m (8 * h + i) = Z.testbit v i) ->
  load32 m h = v.
Proof.
  intros Hv B. apply Z.bits_inj'. intros i Hi. rewrite load32_bit by lia.
  destruct (Z.ltb_spec i 32); cbn [andb]; [apply B; lia|].
  symmetry. now apply bits_above_u32.
Qed.

Lemma byte_from_bits (b b' : byte) :
  (forall i, 0 <= i < 8 ->
     Z.testbit (byte.unsigned b) i = Z.testbit (byte.unsigned b') i) -> b = b'.
Proof.
  intros B. apply byte.unsigned_inj. apply Z.bits_inj'. intros i Hi.
  destruct (Z.lt_ge_cases i 8); [apply B; lia|].
  now rewrite !byte_bits_high by lia.
Qed.

(** LWL at [A + 3] followed by LWR at [A], both in one entry of direct memory
    whose host buffer is aligned as the guest addresses are, load the
    unaligned word at [A]: the value is the four bytes at the host address of
    [A], whatever the register held before, and the state is left as it
    was. *)
Theorem rw_lwl_lwr_idiom {J} (map : list (lightrec_mem_map J))
    (state : lightrec_state J) (op_l op_r : opcode) (base d : Z)
    (m : lightrec_mem_map J) :
  let a := effective_address base op_r in
  let a3 := effective_address base op_l in
  let r1 := lightrec_rw map state op_l base d in
  i_op op_l = OP_LWL -> i_op op_r = OP_LWR ->
  kunseg a3 = kunseg a + 3 ->
  resolve map a = Some m -> resolve map a3 = Some m -> map_ops m = None ->
  0 <= map_pc m ->
  Z.land (host_address m a) 3 = Z.land (kunseg a) 3 ->
  lightrec_rw map (snd r1) op_r base (fst r1)
  = (load32 (mem state) (host_address m a), state).
Proof.
  intros a a3 r1 Il Ir Hk Ra Ra3 Om Hpc Hal.
  exact (rw_lwl_lwr_pair map m a a3 Hk Ra Ra3 Om Hpc Hal state op_l op_r base d
           eq_refl eq_refl Il Ir).
Qed.

Lemma rw_lwl_lwr_idiom_witness :
  kunseg (effective_address 0x80000000 (insn OP_LWL 5))
  = kunseg (effective_address 0x80000000 (insn OP_LWR 2)) + 3 /\
  resolve [ram] (effective_address 0x80000000 (insn OP_LWR 2)) = Some ram /\
  lightrec_rw [ram]
    (snd (lightrec_rw [ram] (set_mem state0 (store32 mem0 0x10004 0x11223344))
            (insn OP_LWL 5) 0x80000000 0x55667788))
    (insn OP_LWR 2) 0x80000000
    (fst (lightrec_rw [ram] (set_mem state0 (store32 mem0 0x10004 0x11223344))
            (insn OP_LWL 5) 0x80000000 0x55667788))
  = (0x3344AABB, set_mem state0 (store32 mem0 0x10004 0x11223344)).
Proof.
  split; [reflexivity|]. split; [reflexivity|].
  apply (rw_lwl_lwr_idiom [ram] (set_mem state0 (store32 mem0 0x10004 0x11223344))
           (insn OP_LWL 5) (insn OP_LWR 2) 0x80000000 0x55667788 ram);
    solve [reflexivity | vm_compute; congruence].
Defined.

(** SWL of [v] at [A + 3] followed by SWR of [v] at [A], under the same
    conditions, store the unaligned word: the four bytes at the host address
    [h] of [A] hold [v]; no byte below [h] or from [h + 5] on is changed and no
    other field of the state; the byte at [h + 4] is unchanged when [A] is
    word-aligned and has its lowest bit cleared when it is not. *)
Theorem rw_swl_swr_idiom {J} (map : list (lightrec_mem_map J))
    (state : lightrec_state J) (op_l op_r : opcode) (base v : Z)
    (m : lightrec_mem_map J) :
  let a := effective_address base op_r in
  let a3 := effective_address base op_l in
  let h := host_address m a in
  let r := lightrec_rw map (snd (lightrec_rw map state op_l base v)) op_r base v in
  i_op op_l = OP_SWL -> i_op op_r = OP_SWR ->
  kunseg a3 = kunseg a + 3 ->
  resolve map a = Some m -> resolve map a3 = Some m -> map_ops m = None ->
  0 <= map_pc m ->
  Z.land h 3 = Z.land (kunseg a) 3 ->
  0 <= v < 2 ^ 32 ->
  r = (0, set_mem state (mem (snd r))) /\
  load32 (mem (snd r)) h = v /\
  (forall y, y < h \/ h + 5 <= y -> mem (snd r) y = mem state y) /\
  load8 (mem (snd r)) (h + 4)
  = if Z.land (kunseg a) 3 =? 0 then load8 (mem state) (h + 4)
    else Z.clearbit (load8 (mem state) (h + 4)) 0.
Proof.
  intros a a3 h r Il Ir Hk Ra Ra3 Om Hpc Hal Hv.
  destruct (rw_swl_swr_pair map m a a3 Hk Ra Ra3 Om Hpc Hal state op_l op_r base v
              eq_refl eq_refl Il Ir Hv) as [E B].
  fold r h in E, B. split; [exact E|]. split; [|split].
  - apply load32_from_bits; [exact Hv|]. intros i Hi. rewrite B.
    destruct (Z.leb_spec (8 * h) (8 * h + i)), (Z.ltb_spec (8 * h + i) (8 * h + 32));
      try lia.
    cbn [andb]. f_equal. lia.
  - intros y Hy. apply byte_from_bits. intros i Hi.
    rewrite <- !membit_byte, B by lia.
    destruct (Z.leb_spec (8 * h) (8 * y + i)), (Z.ltb_spec (8 * y + i) (8 * h + 32)),
      (Z.eqb_spec (8 * y + i) (8 * h + 32)); try lia; reflexivity.
  - rewrite !load8_byte. apply Z.bits_inj'. intros i Hi.
    destruct (Z.lt_ge_cases i 8) as [Hi8|Hi8].
    + rewrite <- membit_byte, B by lia.
      destruct (Z.leb_spec (8 * h) (8 * (h + 4) + i)),
        (Z.ltb_spec (8 * (h + 4) + i) (8 * h + 32)); try lia.
      cbn [andb].
      destruct (Z.eqb_spec (Z.land (kunseg a) 3) 0); cbn [negb].
      * rewrite andb_false_r. now apply membit_byte.
      * rewrite andb_true_r.
        destruct (Z.eqb_spec (8 * (h + 4) + i) (8 * h + 32)).
        -- replace i with 0 by lia. now rewrite Z.clearbit_eq.
        -- rewrite Z.clearbit_neq by lia. now apply membit_byte.
    + rewrite byte_bits_high by lia.
      destruct (Z.land (kunseg a) 3 =? 0); [now rewrite byte_bits_high by lia|].
      rewrite Z.clearbit_neq by lia. now rewrite byte_bits_high by lia.
Qed.

Lemma rw_swl_swr_idiom_witness :
  let state := set_mem state0 (store32 mem0 0x10004 0xFFFFFFFF) in
  let r := lightrec_rw [ram] (snd (lightrec_rw [ram] state (insn OP_SWL 4) 0 0x11223344))
             (insn OP_SWR 1) 0 0x11223344 in
  kunseg (effective_address 0 (insn OP_SWL 4))
  = kunseg (effective_address 0 (insn OP_SWR 1)) + 3 /\
  resolve [ram] (effective_address 0 (insn OP_SWR 1)) = Some ram /\
  resolve [ram] (effective_address 0 (insn OP_SWL 4)) = Some ram /\
  load32 (mem (snd r)) 0x10001 = 0x11223344 /\
  load32 (mem (snd r)) 0x10000 = 0x223344DD /\
  load32 (mem (snd r)) 0x10004 = 0xFFFFFE11.
Proof.
  cbv zeta. split; [reflexivity|]. split; [reflexivity|]. split; [reflexivity|].
  split; [|split; reflexivity].
  apply (rw_swl_swr_idiom [ram] (set_mem state0 (store32 mem0 0x10004 0xFFFFFFFF))
           (insn OP_SWL 4) (insn OP_SWR 1) 0 0x11223344 ram);
    solve [reflexivity | vm_compute; split; congruence | vm_compute; congruence].
Defined.

(** The unaligned idiom is a round trip: after SWL of [v] at [A + 3] and SWR
    of [v] at [A], LWL at [A + 3] followed by LWR at [A] returns [v], whatever
    the register held before. *)
Theorem rw_unaligned_idiom_round_trip {J} (map : list (lightrec_mem_map J))
    (state : lightrec_state J) (op_swl op_swr op_lwl op_lwr : opcode)
    (base v d : Z) (m : lightrec_mem_map J) :
  let a := effective_address base op_swr in
  let a3 := effective_address base op_swl in
  let state2 :=
    snd (lightrec_rw map (snd (lightrec_rw map state op_swl base v)) op_swr base v) in
  let r1 := lightrec_rw map state2 op_lwl base d in
  i_op op_swl = OP_SWL -> i_op op_swr = OP_SWR ->
  i_op op_lwl = OP_LWL -> i_op op_lwr = OP_LWR ->
  i_imm op_lwl = i_imm op_swl -> i_imm op_lwr = i_imm op_swr ->
  kunseg a3 = kunseg a + 3 ->
  resolve map a = Some m -> resolve map a3 = Some m -> map_ops m = None ->
  0 <= map_pc m ->
  Z.land (host_address m a) 3 = Z.land (kunseg a) 3 ->
  0 <= v < 2 ^ 32 ->
  lightrec_rw map (snd r1) op_lwr base (fst r1) = (v, state2).
Proof.
  intros a a3 state2 r1 Isl Isr Ill Ilr Iml Imr Hk Ra Ra3 Om Hpc Hal Hv.
  assert (effective_address base op_lwl = a3) as El
    by (unfold a3, effective_address; now rewrite Iml).
  assert (effective_address base op_lwr = a) as Er
    by (unfold a, effective_address; now rewrite Imr).
  subst r1.
  rewrite (rw_lwl_lwr_pair map m a a3 Hk Ra Ra3 Om Hpc Hal state2 op_lwl op_lwr
             base d El Er Ill Ilr).
  f_equal.
  destruct (rw_swl_swr_pair map m a a3 Hk Ra Ra3 Om Hpc Hal state op_swl op_swr
              base v eq_refl eq_refl Isl Isr Hv) as [_ B].
  fold state2 in B.
  apply load32_from_bits; [exact Hv|]. intros i Hi. rewrite B.
  destruct (Z.leb_spec (8 * host_address m a) (8 * host_address m a + i)),
    (Z.ltb_spec (8 * host_address m a + i) (8 * host_address m a + 32)); try lia.
  cbn [andb]. f_equal. lia.
Qed.

Lemma rw_unaligned_idiom_round_trip_witness :
  kunseg (effective_address 0 (insn OP_SWL 4)) = kunseg (effective_address 0 (insn OP_SWR 1)) + 3 /\
  resolve [ram] (effective_address 0 (insn OP_SWR 1)) = Some ram /\
  resolve [ram] (effective_address 0 (insn OP_SWL 4)) = Some ram /\
  fst (lightrec_rw [ram]
         (snd (lightrec_rw [ram]
                 (snd (lightrec_rw [ram]
                         (snd (lightrec_rw [ram] state0 (insn OP_SWL 4) 0 0x11223344))
                         (insn OP_SWR 1) 0 0x11223344))
                 (insn OP_LWL 4) 0 0x55667788))
         (insn OP_LWR 1) 0
         (fst (lightrec_rw [ram]
                 (snd (lightrec_rw [ram]
                         (snd (lightrec_rw [ram] state0 (insn OP_SWL 4) 0 0x11223344))
                         (insn OP_SWR 1) 0 0x11223344))
                 (insn OP_LWL 4) 0 0x55667788)))
  = 0x11223344.
Proof.
  split; [reflexivity|]. split; [reflexivity|]. split; [reflexivity|].
  rewrite (rw_unaligned_idiom_round_trip [ram] state0 (insn OP_SWL 4) (insn OP_SWR 1)
             (insn OP_LWL 4) (insn OP_LWR 1) 0 0x11223344 0x55667788 ram);
    solve [reflexivity | vm_compute; split; congruence | vm_compute; congruence].
Defined.

(** ** Where the driver reads the code *)

Lemma find_code_address_direct {J} (map : list (lightrec_mem_map J)) pc0 :
  (forall e, In e map -> map_ops e = None) ->
  find_code_address map pc0 =
  match resolve map pc0 with
  | Some m => host_address m pc0
  | None => 0
  end.
Proof.
  unfold find_code_address, resolve, host_address.
  induction map as [|e rest IH]; intros D; [reflexivity|].
  cbn [find_code_address_loop find]. unfold map_selects at 1, map_contains.
  rewrite (D e (or_introl eq_refl)).
  rewrite IH by (intros e' He'; apply D; now right).
  destruct (Z.geb_spec (kunseg pc0) (map_pc e)), (Z.leb_spec (map_pc e) (kunseg pc0));
    try lia; cbn [andb]; [|reflexivity].
  now destruct (kunseg pc0 <? u32 (map_pc e + map_length e)).
Qed.

(** With a map of plain memory (no MMIO entry) the driver reads the code
    where the engine reads data: when the engine resolves the PC, the pointer
    of [find_code_address] is the host address at which LW at that PC loads;
    when it does not, the pointer is null.  So the pointer is null exactly
    when the PC is in no entry or the host address of the PC is itself 0. *)
Theorem find_code_address_is_load_address {J} (map : list (lightrec_mem_map J))
    (state : lightrec_state J) (op : opcode) (pc0 data : Z) :
  (forall e, In e map -> map_ops e = None) ->
  0 <= pc0 < 2 ^ 32 -> i_op op = OP_LW -> i_imm op = 0 ->
  match resolve map pc0 with
  | Some m =>
      find_code_address map pc0 = host_address m pc0 /\
      lightrec_rw map state op pc0 data
      = (load32 (mem state) (find_code_address map pc0), state)
  | None => find_code_address map pc0 = 0
  end /\
  (find_code_address map pc0 = 0 <->
   match resolve map pc0 with
   | Some m => host_address m pc0 = 0
   | None => True
   end).
Proof.
  intros D Hpc Iop Iimm.
  assert (effective_address pc0 op = pc0) as E.
  { unfold effective_address. rewrite Iimm. change (s16 0) with 0.
    rewrite Z.add_0_r. now apply u32_small. }
  rewrite (find_code_address_direct map pc0 D).
  destruct (resolve map pc0) as [m|] eqn:R; [|split; [reflexivity|tauto]].
  split; [|tauto].
  split; [reflexivity|].
  assert (map_ops m = None) as O by (apply D; now apply resolve_some in R).
  rewrite (rw_at_direct map state op pc0 data pc0 m E R O).
  apply rw_direct_LW; rewrite ?Iop; try (vm_compute; congruence).
  unfold is_store. now rewrite Iop.
Qed.

Lemma find_code_address_is_load_address_witness :
  find_code_address [ram] 0x80000004 = host_address ram 0x80000004 /\
  lightrec_rw [ram] state0 (insn OP_LW 0) 0x80000004 0
  = (load32 (mem state0) (find_code_address [ram] 0x80000004), state0).
Proof.
  apply (proj1 (find_code_address_is_load_address [ram] state0 (insn OP_LW 0)
                  0x80000004 0 ltac:(intros e [<-|[]]; reflexivity) ltac:(lia)
                  eq_refl eq_refl)).
Defined.

(** ** The driver: failure and success *)

Lemma find_code_address_none {J} (map : list (lightrec_mem_map J)) pc0 :
  (forall e, In e map -> map_contains e (kunseg pc0) = false) ->
  find_code_address map pc0 = 0.
Proof.
  unfold find_code_address.
  induction map as [|e rest IH]; intros N; [reflexivity|].
  cbn [find_code_address_loop].
  pose proof (N e (or_introl eq_refl)) as Ne. unfold map_contains in Ne.
  destruct (Z.geb_spec (kunseg pc0) (map_pc e)), (Z.leb_spec (map_pc e) (kunseg pc0));
    try lia; cbn [andb] in *.
  - rewrite Ne. apply IH. intros e' He'. apply N. now right.
  - apply IH. intros e' He'. apply N. now right.
Qed.

(** A PC that no entry of the map contains (after [kunseg], MMIO entries
    counted like the others) is not compiled: the driver returns null before
    it allocates, logs or touches the code generator, and the executor, on a
    cache miss, logs its one message and returns the PC. *)
Theorem recompile_unmapped_pc {J} (X : collaborators J)
    (map : list (lightrec_mem_map J)) (state : lightrec_state J) (pc0 : Z)
    (w : block) :
  (forall e, In e map -> map_contains e (kunseg pc0) = false) ->
  lightrec_recompile_block X map state pc0 = (None, state) /\
  (wrapper state = Some w ->
   lightrec_find_block (block_cache state) pc0 = None ->
   lightrec_execute X map state pc0
   = Returned (pc0, ERROR state (ErrRecompileAt pc0))).
Proof.
  intros N.
  assert (lightrec_recompile_block X map state pc0 = (None, state)) as R
    by (unfold lightrec_recompile_block; now rewrite (find_code_address_none map pc0 N)).
  split; [exact R|]. intros W F. unfold lightrec_execute. now rewrite W, F, R.
Qed.

Lemma recompile_unmapped_pc_witness :
  lightrec_recompile_block toy [ramZ] (stateZ [false]) 0x80001000
  = (None, stateZ [false]) /\
  lightrec_execute toy [ramZ] (stateZ [false]) 0x80001000
  = Returned (0x80001000, ERROR (stateZ [false]) (ErrRecompileAt 0x80001000)).
Proof.
  destruct (recompile_unmapped_pc toy [ramZ] (stateZ [false]) 0x80001000
              (mkblock 0 0 7 0x4000 [] 0 0)) as [R E].
  - intros e [<-|[]]. reflexivity.
  - split; [exact R|]. apply E; reflexivity.
Defined.

Lemma recompile_loop_fields {J} (X : collaborators J) elm :
  forall blk skip_next pc0 j,
    let b := fst (recompile_loop X elm blk skip_next pc0 j) in
    pc b = pc blk /\ kunseg_pc b = kunseg_pc blk /\ _jit b = _jit blk /\
    function b = function blk /\ code b = code blk.
Proof.
  induction elm as [|op next IH]; intros blk skip_next pc0 j; [now cbn|].
  cbn [recompile_loop].
  destruct skip_next; [apply (IH (set_cycles blk _))|].
  destruct (op =? 0); [apply (IH (set_cycles blk _))|].
  destruct (lightrec_rec_opcode X _ (op :: next) pc0 j) as [ret j'].
  apply (IH (set_cycles blk _)).
Qed.

(** The block that the driver returns is the block of the PC asked for: it
    holds that PC, its image by [kunseg], the host pointer of its code (never
    null) and a list of at least one opcode.  A successful compilation logs
    nothing and changes the allocator and the code generator only. *)
Theorem recompile_block_result {J} (X : collaborators J)
    (map : list (lightrec_mem_map J)) (state : lightrec_state J) (pc0 : Z)
    (blk : block) (state' : lightrec_state J) :
  lightrec_recompile_block X map state pc0 = (Some blk, state') ->
  pc blk = pc0 /\ kunseg_pc blk = kunseg pc0 /\
  code blk = find_code_address map pc0 /\ code blk <> 0 /\
  opcode_list blk <> [] /\
  state' = set_jit (snd (malloc state)) (jit state') /\ log state' = log state.
Proof.
  unfold lightrec_recompile_block.
  destruct (Z.eqb_spec (find_code_address map pc0) 0) as [|Hc]; [discriminate|].
  assert (log (snd (malloc state)) = log state) as Hlog
    by (unfold malloc; now destruct (heap state)).
  destruct (malloc state) as [ok state1]. cbn [snd] in *.
  destruct ok; cbn [negb]; [|discriminate].
  destruct (lightrec_disassemble X (mem state1) (find_code_address map pc0))
    as [|op0 list0] eqn:Hl; [discriminate|].
  destruct (jit_new_state X (jit state1)) as [[hd j1]|]; [|discriminate].
  match goal with
  | |- context [recompile_loop X ?l ?b ?s ?p ?k] =>
      pose proof (recompile_loop_fields X l b s p k) as F;
      pose proof (recompile_loop_spec X l b s p k) as [L _];
      destruct (recompile_loop X l b s p k) as [blk1 j2]
  end.
  cbn [fst pc kunseg_pc _jit function code opcode_list] in F, L.
  destruct F as (F1 & F2 & _ & _ & F5).
  destruct (jit_ret_emit X j2) as [f j3].
  intros E. injection E as <- <-. cbn [pc kunseg_pc code opcode_list set_function].
  rewrite F1, F2, F5, L. repeat split; try congruence; try exact Hlog.
Qed.

Lemma recompile_block_result_witness :
  lightrec_recompile_block toy [ramZ] (stateZ [true]) 0xa0000000
    = (Some (mkblock 0xa0000000 0 7 0x6000 [insn 4 8; insn 0x23 0; 0; insn 0x28 0]
               8 0x10000),
       set_jit (stateZ []) 2) /\
  kunseg_pc (mkblock 0xa0000000 0 7 0x6000 [insn 4 8; insn 0x23 0; 0; insn 0x28 0]
               8 0x10000) = kunseg 0xa0000000 /\
  log (set_jit (stateZ []) 2) = log (stateZ [true]).
Proof.
  split; [reflexivity|].
  destruct (recompile_block_result toy [ramZ] (stateZ [true]) 0xa0000000
              (mkblock 0xa0000000 0 7 0x6000 [insn 4 8; insn 0x23 0; 0; insn 0x28 0]
                 8 0x10000)
              (set_jit (stateZ []) 2) eq_refl) as (_ & K & _ & _ & _ & _ & L).
  split; [exact K|exact L].
Defined.

Lemma recompile_loop_nops {J} (X : collaborators J) elm :
  Forall (fun op => op = 0) elm ->
  forall blk skip_next pc0 j, snd (recompile_loop X elm blk skip_next pc0 j) = j.
Proof.
  induction 1 as [|op next Hop _ IH]; intros blk skip_next pc0 j; [reflexivity|].
  cbn [recompile_loop]. subst op. cbn [Z.eqb].
  destruct skip_next; apply IH.
Qed.

(** NOPs are counted and not emitted: when the disassembler gives a list of
    all-zero opcodes, the emitter is not called at all (the code generator
    goes from the prologue straight to the epilogue), and the block holds the
    cycles of every opcode of the list. *)
Theorem recompile_nops_emit_nothing {J} (X : collaborators J)
    (map : list (lightrec_mem_map J)) (state : lightrec_state J) (pc0 : Z)
    (hd : Z) (j1 : J) :
  let list := lightrec_disassemble X (mem state) (find_code_address map pc0) in
  find_code_address map pc0 <> 0 ->
  fst (malloc state) = true ->
  list <> [] -> Forall (fun op => op = 0) list ->
  jit_new_state X (jit state) = Some (hd, j1) ->
  exists blk state',
    lightrec_recompile_block X map state pc0 = (Some blk, state') /\
    jit state' = snd (jit_ret_emit X (jit_prolog_tramp X (lightrec_regcache_reset X j1))) /\
    function blk = fst (jit_ret_emit X (jit_prolog_tramp X (lightrec_regcache_reset X j1))) /\
    opcode_list blk = list /\
    cycles blk = u32 (sum_cycles X list).
Proof.
  intros list Hc Ha Hl Hn Hj. unfold lightrec_recompile_block.
  destruct (Z.eqb_spec (find_code_address map pc0) 0); [contradiction|].
  assert (mem (snd (malloc state)) = mem state /\
          jit (snd (malloc state)) = jit state) as [Hm Hjit]
    by (unfold malloc; now destruct (heap state)).
  destruct (malloc state) as [ok state1]. cbn [fst snd] in *. subst ok.
  cbn [negb]. rewrite Hm, Hjit, Hj. fold list.
  destruct list as [|op0 list0] eqn:El; [contradiction|].
  match goal with
  | |- context [recompile_loop X ?l ?b ?s ?p ?k] =>
      pose proof (recompile_loop_nops X l Hn b s p k) as N;
      pose proof (recompile_loop_fields X l b s p k) as F;
      pose proof (recompile_loop_spec X l b s p k) as [L C];
      pose proof (recompile_loop_cycles_range X l b s p k) as Rg;
      destruct (recompile_loop X l b s p k) as [blk1 j2]
  end.
  cbn [fst snd pc kunseg_pc _jit function code opcode_list cycles] in *. subst j2.
  destruct F as (_ & _ & _ & F4 & _).
  destruct (jit_ret_emit X _) as [f j3].
  eexists. eexists. split; [reflexivity|]. cbn.
  rewrite (u32_small (cycles blk1)) in C by (apply Rg; lia).
  repeat split; assumption.
Qed.

Lemma recompile_nops_emit_nothing_witness :
  exists blk state',
    lightrec_recompile_block toy_nops [ramZ] (stateZ []) 0 = (Some blk, state') /\
    jit state' = 0 /\ opcode_list blk = [0; 0; 0] /\ cycles blk = 6.
Proof.
  destruct (recompile_nops_emit_nothing toy_nops [ramZ] (stateZ []) 0 7 0)
    as (blk & state' & E & Jt & _ & L & C).
  - vm_compute. congruence.
  - reflexivity.
  - vm_compute. congruence.
  - vm_compute. repeat constructor.
  - reflexivity.
  - exists blk, state'. split; [exact E|]. split; [exact Jt|].
    split; [exact L|exact C].
Defined.

(** ** The executor, initialisation and release *)

(** A miss compiles once.  When the cache has no block for the PC and the
    driver returns one, the executor registers it and runs it; if the run
    leaves the wrapper and the block cache alone, a second call at the same
    PC finds that block: it prepares the state (exit flags NORMAL, exit
    cycles 0, the block current, [stop] untouched) and enters the same code
    without going through the driver again. *)
Theorem execute_miss_then_hit {J} (X : collaborators J)
    (map : list (lightrec_mem_map J)) (state : lightrec_state J) (pc0 : Z)
    (w blk : block) (state1 : lightrec_state J) :
  (forall f g s, wrapper (run_wrapper X f g s) = wrapper s /\
                 block_cache (run_wrapper X f g s) = block_cache s) ->
  wrapper state = Some w ->
  lightrec_find_block (block_cache state) pc0 = None ->
  lightrec_recompile_block X map state pc0 = (Some blk, state1) ->
  exists s1 s_in,
    lightrec_execute X map state pc0 = Returned (next_pc s1, s1) /\
    block_cache s1 = blk :: block_cache state /\
    lightrec_execute X map s1 pc0
    = Returned (next_pc (run_wrapper X (function w) (function blk) s_in),
                run_wrapper X (function w) (function blk) s_in) /\
    current s_in = Some blk /\
    block_exit_flags s_in = LIGHTREC_EXIT_NORMAL /\ block_exit_cycles s_in = 0 /\
    stop s_in = stop s1 /\ mem s_in = mem s1 /\
    heap s_in = heap s1 /\ jit s_in = jit s1 /\
    log s_in = log s1 ++ [CallWrapper (function w) (function blk)].
Proof.
  intros P W F R.
  assert (pc blk = pc0) as Hpc.
  { revert R. unfold lightrec_recompile_block.
    destruct (find_code_address map pc0 =? 0); [discriminate|].
    destruct (malloc state) as [ok st]. destruct ok; cbn [negb]; [|discriminate].
    destruct (lightrec_disassemble X (mem st) _); [discriminate|].
    destruct (jit_new_state X (jit st)) as [[hd j1]|]; [|discriminate].
    match goal with
    | |- context [recompile_loop X ?l ?b ?s ?p ?k] =>
        pose proof (recompile_loop_fields X l b s p k) as (F1 & _);
        destruct (recompile_loop X l b s p k) as [blk1 j2]
    end.
    destruct (jit_ret_emit X j2). intros E. injection E as <- _. exact F1. }
  assert (wrapper state1 = wrapper state /\ block_cache state1 = block_cache state)
    as [W1 C1].
  { revert R. unfold lightrec_recompile_block.
    destruct (find_code_address map pc0 =? 0); [discriminate|].
    assert (wrapper (snd (malloc state)) = wrapper state /\
            block_cache (snd (malloc state)) = block_cache state) as [Hw Hc]
      by (unfold malloc; now destruct (heap state)).
    destruct (malloc state) as [ok st]. destruct ok; cbn [negb snd] in *; [|discriminate].
    destruct (lightrec_disassemble X (mem st) _); [discriminate|].
    destruct (jit_new_state X (jit st)) as [[hd j1]|]; [|discriminate].
    destruct (recompile_loop X _ _ _ _ _) as [blk1 j2].
    destruct (jit_ret_emit X j2). intros E. injection E as _ <-. now cbn. }
  unfold lightrec_execute at 1. rewrite W, F, R.
  eexists. eexists. split; [reflexivity|].
  split; [rewrite (proj2 (P _ _ _)); cbn; now rewrite C1|].
  unfold lightrec_execute.
  rewrite (proj1 (P _ _ _)), (proj2 (P _ _ _)). cbn [wrapper block_cache set_block_cache
    set_block_exit_flags set_block_exit_cycles set_current log_call set_log].
  rewrite W1, W. unfold lightrec_find_block, lightrec_register_block. cbn [find].
  rewrite Hpc, Z.eqb_refl.
  split; [reflexivity|]. cbn. repeat split.
Qed.

Lemma execute_miss_then_hit_witness :
  lightrec_find_block (block_cache (stateZ [])) 0 = None /\
  lightrec_recompile_block toy [ramZ] (stateZ []) 0
  = (Some toy_block, set_jit (stateZ []) 2) /\
  exists s1 s_in,
    lightrec_execute toy [ramZ] (stateZ []) 0 = Returned (next_pc s1, s1) /\
    block_cache s1 = [toy_block] /\
    lightrec_execute toy [ramZ] s1 0
    = Returned (next_pc (run_wrapper toy 0x4000 0x6000 s_in),
                run_wrapper toy 0x4000 0x6000 s_in) /\
    current s_in = Some toy_block /\ jit s_in = jit s1.
Proof.
  split; [reflexivity|]. split; [reflexivity|].
  destruct (execute_miss_then_hit toy [ramZ] (stateZ []) 0
              (mkblock 0 0 7 0x4000 [] 0 0) toy_block (set_jit (stateZ []) 2))
    as (s1 & s_in & E1 & C & E2 & Cu & _ & _ & _ & _ & _ & Jt & _).
  - intros f g s. split; reflexivity.
  - reflexivity.
  - reflexivity.
  - reflexivity.
  - exists s1, s_in. repeat split; assumption.
Defined.

Lemma execute_with_wrapper {J} (X : collaborators J) (map : list (lightrec_mem_map J))
    state pc0 :
  wrapper state <> None -> lightrec_execute X map state pc0 <> NullDeref.
Proof.
  intros W. unfold lightrec_execute.
  destruct (wrapper state); [|contradiction].
  destruct (lightrec_find_block _ _); [discriminate|].
  destruct (lightrec_recompile_block X map state pc0) as [[b'|] s]; discriminate.
Qed.

Lemma app_one_neq {A} (l : list A) x : l ++ [x] <> l.
Proof.
  intros E. apply (f_equal (@length A)) in E. rewrite length_app in E.
  cbn in E. lia.
Qed.

Lemma generate_wrapper_block_cases {J} (X : collaborators J) (state : lightrec_state J) :
  (fst (generate_wrapper_block X state) = None /\
   snd (generate_wrapper_block X state)
   = ERROR (snd (malloc state)) ErrWrapperNoMem) \/
  (exists b j e,
     fst (generate_wrapper_block X state) = Some b /\
     snd (generate_wrapper_block X state)
     = set_end_of_block (set_jit (snd (malloc state)) j) e).
Proof.
  unfold generate_wrapper_block.
  destruct (malloc state) as [ok st]. cbn [snd].
  destruct ok; cbn [negb]; [|now left].
  destruct (jit_new_state X (jit st)) as [[hd j1]|]; [|now left].
  destruct (jit_emit_wrapper X j1) as [[f e] j2]. right. cbn. eauto.
Qed.

Lemma generate_address_lookup_block_cases {J} (X : collaborators J)
    (state : lightrec_state J) nb :
  (fst (generate_address_lookup_block X state nb) = None /\
   snd (generate_address_lookup_block X state nb)
   = ERROR (snd (malloc state)) ErrLookupNoMem) \/
  (exists b j,
     fst (generate_address_lookup_block X state nb) = Some b /\
     snd (generate_address_lookup_block X state nb) = set_jit (snd (malloc state)) j).
Proof.
  unfold generate_address_lookup_block.
  destruct (malloc state) as [ok st]. cbn [snd].
  destruct ok; cbn [negb]; [|now left].
  destruct (jit_new_state X (jit st)) as [[hd j1]|]; [|now left].
  destruct (jit_emit_address_lookup X nb j1) as [f j2]. right. cbn. eauto.
Qed.

Lemma malloc_frame {J} (state : lightrec_state J) :
  snd (malloc state) = set_heap state (heap (snd (malloc state))).
Proof. unfold malloc. destruct (heap state) eqn:E; destruct state; cbn in *; now subst. Qed.

(** What [lightrec_init] returns, when it returns: the first [nb] entries of
    the map and a state that is stopped by nothing, with exit flags NORMAL, an
    empty block cache, no current block, the coprocessor table and the host
    memory it was given, and an address-lookup block whose entry is
    [addr_lookup].  The wrapper is null exactly when the out-of-memory message
    of the wrapper has been logged; when nothing has been logged the
    executor does not dereference null on that state. *)
Theorem init_returned_state {J} (X : collaborators J) (m : hostmem)
    (l : list log_entry) (h : list bool) (j : J)
    (map mem_map : list (lightrec_mem_map J)) (nb cop : Z)
    (state : lightrec_state J) :
  lightrec_init X m l h j map nb cop = Returned (mem_map, state) ->
  mem_map = firstn (Z.to_nat nb) map /\
  (exists b, addr_lookup_block state = Some b /\ addr_lookup state = function b) /\
  current state = None /\ stop state = false /\
  block_exit_flags state = LIGHTREC_EXIT_NORMAL /\ block_cache state = [] /\
  cop_ops state = cop /\ mem state = m /\
  ((wrapper state = None /\ log state = l ++ [ErrWrapperNoMem]) \/
   (wrapper state <> None /\ log state = l)) /\
  (log state = l -> forall pc0, lightrec_execute X mem_map state pc0 <> NullDeref).
Proof.
  unfold lightrec_init.
  destruct (match h with [] => (true, []) | ok :: rest => (ok, rest) end) as [ok h1].
  destruct ok; cbn [negb]; [|discriminate].
  match goal with
  | |- context [generate_wrapper_block X ?s] =>
      set (s0 := s); pose proof (generate_wrapper_block_cases X s0) as CW;
      pose proof (malloc_frame s0) as M0;
      destruct (generate_wrapper_block X s0) as [w s1]
  end.
  cbn [fst snd] in CW.
  match goal with
  | |- context [generate_address_lookup_block X ?s nb] =>
      set (s2 := s); pose proof (generate_address_lookup_block_cases X s2 nb) as CL;
      pose proof (malloc_frame s2) as M2;
      destruct (generate_address_lookup_block X s2 nb) as [b s3]
  end.
  cbn [fst snd] in CL. cbn [addr_lookup_block set_addr_lookup_block].
  destruct b as [blk|]; [|discriminate].
  destruct CL as [[CL _]|(b' & j3 & _ & CL)]; [discriminate|].
  intros E. injection E as <- <-.
  set (fin := set_addr_lookup (set_addr_lookup_block s3 (Some blk)) (function blk)).
  assert (wrapper fin = w /\ log fin = log s1 /\ current fin = current s1 /\
          stop fin = stop s1 /\ block_exit_flags fin = block_exit_flags s1 /\
          block_cache fin = block_cache s1 /\ cop_ops fin = cop_ops s1 /\
          mem fin = mem s1) as (Fw & Fl & Fc & Fs & Ff & Fb & Fo & Fm)
    by (subst fin; rewrite CL, M2; subst s2; cbn; repeat split).
  assert ((w = None /\ log s1 = l ++ [ErrWrapperNoMem]) \/ (w <> None /\ log s1 = l))
    as Hw.
  { destruct CW as [[-> ->]|(bw & jw & ew & -> & ->)]; rewrite M0; subst s0; cbn.
    - now left.
    - right. split; [discriminate|reflexivity]. }
  assert (current s1 = None /\ stop s1 = false /\
          block_exit_flags s1 = LIGHTREC_EXIT_NORMAL /\ block_cache s1 = [] /\
          cop_ops s1 = cop /\ mem s1 = m) as (Sc & Ss & Sf & Sb & So & Sm)
    by (destruct CW as [[_ ->]|(bw & jw & ew & _ & ->)]; rewrite M0; subst s0; cbn;
        repeat split).
  rewrite Fw, Fl, Fc, Fs, Ff, Fb, Fo, Fm, Sc, Ss, Sf, Sb, So, Sm.
  split; [reflexivity|]. split; [exists blk; now subst fin|].
  repeat (split; [reflexivity|]). split; [exact Hw|].
  intros Hl pc0. apply execute_with_wrapper. rewrite Fw.
  destruct Hw as [[_ Hw]|[Hw _]]; [|exact Hw].
  rewrite Hl in Hw. symmetry in Hw. now apply app_one_neq in Hw.
Qed.

Lemma init_returned_state_witness :
  exists state,
    lightrec_init toy mem0 [] [true; true; true] 0 [ramZ; ramZ] 1 5
    = Returned ([ramZ], state) /\
    wrapper state <> None /\ log state = [] /\
    forall pc0, lightrec_execute toy [ramZ] state pc0 <> NullDeref.
Proof.
  destruct (lightrec_init toy mem0 [] [true; true; true] 0 [ramZ; ramZ] 1 5)
    as [[mm state]|] eqn:E; [|vm_compute in E; discriminate E].
  destruct (init_returned_state toy mem0 [] [true; true; true] 0 [ramZ; ramZ] mm 1 5
              state E) as (Hm & _ & _ & _ & _ & _ & _ & _ & Hw & Hx).
  exists state. rewrite Hm in *. split; [reflexivity|].
  assert (log state = []) as L
    by (vm_compute in E; injection E as <-; reflexivity).
  destruct Hw as [[_ Hw]|[Hw _]]; [rewrite L in Hw; discriminate Hw|].
  split; [exact Hw|]. split; [exact L|]. exact (Hx L).
Defined.

(** [lightrec_destroy] reads the wrapper and then the address-lookup block
    in order to free them: it dereferences null exactly when one of them is
    null.  In particular the state that [lightrec_init] returns after the
    wrapper could not be allocated cannot be destroyed. *)
Theorem destroy_null_blocks {J} (X : collaborators J) (R : releasers J)
    (state : lightrec_state J) :
  (lightrec_destroy R state = NullDeref <->
   wrapper state = None \/ addr_lookup_block state = None) /\
  (forall m l h j map nb cop mem_map,
     lightrec_init X m l (true :: false :: h) j map nb cop = Returned (mem_map, state) ->
     lightrec_destroy R state = NullDeref).
Proof.
  assert (lightrec_destroy R state = NullDeref <->
          wrapper state = None \/ addr_lookup_block state = None) as D.
  { unfold lightrec_destroy, lightrec_free_block.
    destruct (wrapper state), (addr_lookup_block state); cbn; split; intros H;
      try reflexivity; try discriminate H; try (destruct H; discriminate);
      auto. }
  split; [exact D|].
  intros m l h j map nb cop mem_map E. apply D. left.
  revert E. unfold lightrec_init, generate_wrapper_block. cbn.
  match goal with
  | |- context [generate_address_lookup_block X ?s0 nb] =>
      pose proof (generate_address_lookup_block_cases X s0 nb) as CL;
      pose proof (malloc_frame s0) as M;
      destruct (generate_address_lookup_block X s0 nb) as [[b|] s]
  end; cbn [fst snd addr_lookup_block set_addr_lookup_block] in *; [|discriminate].
  destruct CL as [[CL _]|(b' & j' & _ & ->)]; [discriminate|].
  intros E. injection E as _ <-. rewrite M. reflexivity.
Qed.

Lemma destroy_null_blocks_witness :
  match lightrec_init toy mem0 [] [true; false] 0 [ramZ] 1 0 with
  | Returned (_, state) => lightrec_destroy toy_release state = NullDeref
  | NullDeref => False
  end /\
  match lightrec_init toy mem0 [] [] 0 [ramZ] 1 0 with
  | Returned (_, state) => lightrec_destroy toy_release state = Returned 7
  | NullDeref => False
  end.
Proof.
  split; [|vm_compute; reflexivity].
  destruct (lightrec_init toy mem0 [] [true; false] 0 [ramZ] 1 0)
    as [[mm state]|] eqn:E; [|vm_compute in E; discriminate E].
  exact (proj2 (destroy_null_blocks toy toy_release state) _ _ _ _ _ _ _ _ E).
Defined.
